(** * fieldopt: the quadric-domain engine

    A shallow embedding of [fieldopt/geometry/geometry.py], of the class
    [QuadraticDomain] of [fieldopt/geometry/domains.py] and of the grid
    search of [fieldopt/optimization/grid.py] that samples such a domain.

    numpy's float64 arithmetic is abstracted by the class [Scalar]; every
    function of the program is written once over that class.  Two instances
    are given:
      - [R_scalar]: exact real arithmetic, in which the algebraic laws are
        proved.  Division is total in Rocq, so a law that depends on a
        quotient carries the hypothesis that its divisor is not zero;
      - [f64_scalar]: IEEE-754 binary64, the numbers numpy computes with,
        in which the code is run on concrete inputs.

    Routines of scipy, numpy and sklearn that the program calls but does
    not define ([lstsq], [eig], [cartesian]) and the mesh helpers of
    [fieldopt.geometry.mesh] are interfaces ([LinAlg], [ExtMath],
    [MeshLib]). *)

From Stdlib Require Import Floats Uint63.
From Stdlib Require Import ZArith Reals Lra Lia Psatz List Bool RNsatz.
Import ListNotations.

Set Implicit Arguments.

(** ** Scalars *)

Class Scalar (T : Type) := {
  lit : Z -> T;
  sadd : T -> T -> T;
  ssub : T -> T -> T;
  smul : T -> T -> T;
  sdiv : T -> T -> T;
  sopp : T -> T;
  ssqrt : T -> T;
  sltb : T -> T -> bool
}.

Declare Scope scalar_scope.
Delimit Scope scalar_scope with S.
Notation "x + y" := (sadd x y) : scalar_scope.
Notation "x - y" := (ssub x y) : scalar_scope.
Notation "x * y" := (smul x y) : scalar_scope.
Notation "x / y" := (sdiv x y) : scalar_scope.
Notation "- x" := (sopp x) : scalar_scope.
Notation "x <? y" := (sltb x y) : scalar_scope.

Definition Rltb (a b : R) : bool := if Rlt_dec a b then true else false.

#[export] Instance R_scalar : Scalar R := {
  lit := IZR;
  sadd := Rplus; ssub := Rminus; smul := Rmult; sdiv := Rdiv;
  sopp := Ropp; ssqrt := R_sqrt.sqrt; sltb := Rltb
}.

(** Integers that occur as literals in the program are small, so the
    conversion to binary64 is exact. *)
Definition f64_of_Z (z : Z) : float :=
  match z with
  | Z0 => 0%float
  | Zpos _ => PrimFloat.of_uint63 (Uint63.of_Z z)
  | Zneg p => PrimFloat.opp (PrimFloat.of_uint63 (Uint63.of_Z (Zpos p)))
  end.

#[export] Instance f64_scalar : Scalar float := {
  lit := f64_of_Z;
  sadd := PrimFloat.add; ssub := PrimFloat.sub; smul := PrimFloat.mul;
  sdiv := PrimFloat.div; sopp := PrimFloat.opp; ssqrt := PrimFloat.sqrt;
  sltb := PrimFloat.ltb
}.

(** [np.cos], [np.sin], [np.pi]. *)
Class Trig (T : Type) := {
  tcos : T -> T;
  tsin : T -> T;
  tpi : T
}.

#[export] Instance R_trig : Trig R := {
  tcos := cos; tsin := sin; tpi := PI
}.

(** ** Exceptions *)

Inductive exn := ValueError | IndexError | LinAlgError.

Inductive result (A : Type) :=
| Ok (a : A)
| Raise (e : exn).

Arguments Ok {A} a.
Arguments Raise {A} e.

Definition bind {A B} (c : result A) (k : A -> result B) : result B :=
  match c with
  | Ok a => k a
  | Raise e => Raise e
  end.

Notation "x <- c ;; k" := (bind c (fun x => k))
  (at level 61, c at next level, right associativity).
Notation "' pat <- c ;; k" := (bind c (fun x => match x with pat => k end))
  (at level 61, pat pattern, c at next level, right associativity).

Fixpoint mapM {A B} (f : A -> result B) (l : list A) : result (list B) :=
  match l with
  | [] => Ok []
  | a :: l' => b <- f a ;; bs <- mapM f l' ;; Ok (b :: bs)
  end.

(** ** Arrays of fixed shape *)

Section Shapes.
Variable T : Type.

Record vec2 := V2 { v2x : T; v2y : T }.
Record mat2 := M2 { m2r0 : vec2; m2r1 : vec2 }.
Record vec3 := V3 { vx : T; vy : T; vz : T }.
Record mat3 := M3 { m3r0 : vec3; m3r1 : vec3; m3r2 : vec3 }.
Record vec4 := V4 { ux : T; uy : T; uz : T; uw : T }.
Record mat4 := M4 { m4r0 : vec4; m4r1 : vec4; m4r2 : vec4; m4r3 : vec4 }.

(** The coefficient vector (a,b,c,d,e,f) of
    f(x,y) = a + bx + cy + dxy + ex^2 + fy^2, that is C[0] .. C[5]. *)
Record vec6 := V6 { c0 : T; c1 : T; c2 : T; c3 : T; c4 : T; c5 : T }.

(** The mesh object: [mesh.coords], [mesh.nodes], [mesh.trigs]. *)
Record Mesh := {
  coords : list vec3;
  nodes : list nat;
  trigs : list (nat * nat * nat)
}.
End Shapes.

Arguments V2 {T}.
Arguments M2 {T}.
Arguments V3 {T}.
Arguments M3 {T}.
Arguments V4 {T}.
Arguments M4 {T}.
Arguments V6 {T}.
Arguments vx {T} v.
Arguments vy {T} v.
Arguments vz {T} v.
Arguments coords {T} m.
Arguments nodes {T} m.
Arguments trigs {T} m.

(** ** External routines *)

(** [scipy.linalg.lstsq(A, b)], at the shape [quad_fit] calls it with (a
    matrix of six columns and one right-hand side), returns the tuple
    (x, residues, rank, s) or raises; [np.linalg.eig(P)], on a 2x2 matrix,
    returns (w, v), the eigenvalues and the matrix whose columns are the
    eigenvectors, or raises. *)
Class LinAlg (T : Type) := {
  lstsq : list (vec6 T) -> list T -> result (vec6 T * list T * nat * list T);
  eig : mat2 T -> result (vec2 T * mat2 T)
}.

(** [fieldopt.geometry.mesh] (imported as [mg]). *)
Class MeshLib (T : Type) := {
  closest_point2surf : vec3 T -> list (vec3 T) -> vec3 T;
  get_normals :
    list nat -> list nat -> list (vec3 T) -> list (nat * nat * nat) -> vec3 T
}.

(** ** numpy indexing *)

(** [np.where(mask)]: the indices at which [mask] holds. *)
Fixpoint where_from (i : nat) (mask : list bool) : list nat :=
  match mask with
  | [] => []
  | b :: m => (if b then [i] else []) ++ where_from (S i) m
  end.

Definition np_where (mask : list bool) : list nat := where_from 0 mask.

(** [arr[idx]] for an index array: an index out of range raises. *)
Definition take {A} (arr : list A) (idx : list nat) : result (list A) :=
  mapM (fun i => match nth_error arr i with
                 | Some a => Ok a
                 | None => Raise IndexError
                 end) idx.

(** ** geometry.py *)

Section Geometry.
Context {T : Type} `{Scalar T}.
Local Open Scope scalar_scope.

Definition s0 : T := lit 0.
Definition s1 : T := lit 1.

Definition vadd (a b : vec3 T) : vec3 T :=
  V3 (vx a + vx b) (vy a + vy b) (vz a + vz b).

Definition vsub (a b : vec3 T) : vec3 T :=
  V3 (vx a - vx b) (vy a - vy b) (vz a - vz b).

Definition vopp (a : vec3 T) : vec3 T := V3 (- vx a) (- vy a) (- vz a).

(** array * scalar, scalar * array, array / scalar *)
Definition vmuls (a : vec3 T) (k : T) : vec3 T :=
  V3 (vx a * k) (vy a * k) (vz a * k).

Definition smulv (k : T) (a : vec3 T) : vec3 T :=
  V3 (k * vx a) (k * vy a) (k * vz a).

Definition vdivs (a : vec3 T) (k : T) : vec3 T :=
  V3 (vx a / k) (vy a / k) (vz a / k).

(** [np.cross], [np.dot], [np.linalg.norm] on 3-vectors *)
Definition cross (a b : vec3 T) : vec3 T :=
  V3 (vy a * vz b - vz a * vy b)
     (vz a * vx b - vx a * vz b)
     (vx a * vy b - vy a * vx b).

Definition dot (a b : vec3 T) : T :=
  vx a * vx b + vy a * vy b + vz a * vz b.

Definition norm (a : vec3 T) : T := ssqrt (dot a a).

(** 3x3 matrices, by rows *)
Definition eye3 : mat3 T :=
  M3 (V3 s1 s0 s0) (V3 s0 s1 s0) (V3 s0 s0 s1).

Definition col0 (m : mat3 T) : vec3 T := V3 (vx (m3r0 m)) (vx (m3r1 m)) (vx (m3r2 m)).
Definition col1 (m : mat3 T) : vec3 T := V3 (vy (m3r0 m)) (vy (m3r1 m)) (vy (m3r2 m)).
Definition col2 (m : mat3 T) : vec3 T := V3 (vz (m3r0 m)) (vz (m3r1 m)) (vz (m3r2 m)).

Definition transpose3 (m : mat3 T) : mat3 T := M3 (col0 m) (col1 m) (col2 m).

Definition m3add (a b : mat3 T) : mat3 T :=
  M3 (vadd (m3r0 a) (m3r0 b)) (vadd (m3r1 a) (m3r1 b)) (vadd (m3r2 a) (m3r2 b)).

Definition m3muls (a : mat3 T) (k : T) : mat3 T :=
  M3 (vmuls (m3r0 a) k) (vmuls (m3r1 a) k) (vmuls (m3r2 a) k).

Definition m3divs (a : mat3 T) (k : T) : mat3 T :=
  M3 (vdivs (m3r0 a) k) (vdivs (m3r1 a) k) (vdivs (m3r2 a) k).

(** [m @ v] *)
Definition m3v (m : mat3 T) (v : vec3 T) : vec3 T :=
  V3 (dot (m3r0 m) v) (dot (m3r1 m) v) (dot (m3r2 m) v).

(** [np.matmul(a, b)] *)
Definition matmul3 (a b : mat3 T) : mat3 T :=
  let row r := V3 (dot r (col0 b)) (dot r (col1 b)) (dot r (col2 b)) in
  M3 (row (m3r0 a)) (row (m3r1 a)) (row (m3r2 a)).

(** 4x4 homogeneous matrices, by rows *)
Definition eye4 : mat4 T :=
  M4 (V4 s1 s0 s0 s0) (V4 s0 s1 s0 s0) (V4 s0 s0 s1 s0) (V4 s0 s0 s0 s1).

Definition dot4 (a b : vec4 T) : T :=
  ux a * ux b + uy a * uy b + uz a * uz b + uw a * uw b.

Definition m4col0 (m : mat4 T) := V4 (ux (m4r0 m)) (ux (m4r1 m)) (ux (m4r2 m)) (ux (m4r3 m)).
Definition m4col1 (m : mat4 T) := V4 (uy (m4r0 m)) (uy (m4r1 m)) (uy (m4r2 m)) (uy (m4r3 m)).
Definition m4col2 (m : mat4 T) := V4 (uz (m4r0 m)) (uz (m4r1 m)) (uz (m4r2 m)) (uz (m4r3 m)).
Definition m4col3 (m : mat4 T) := V4 (uw (m4r0 m)) (uw (m4r1 m)) (uw (m4r2 m)) (uw (m4r3 m)).

(** [a @ b] *)
Definition matmul4 (a b : mat4 T) : mat4 T :=
  let row r :=
    V4 (dot4 r (m4col0 b)) (dot4 r (m4col1 b)) (dot4 r (m4col2 b)) (dot4 r (m4col3 b)) in
  M4 (row (m4r0 a)) (row (m4r1 a)) (row (m4r2 a)) (row (m4r3 a)).

(** [m[:3, :3]] read and written *)
Definition block3 (m : mat4 T) : mat3 T :=
  let cut r := V3 (ux r) (uy r) (uz r) in
  M3 (cut (m4r0 m)) (cut (m4r1 m)) (cut (m4r2 m)).

Definition set_block3 (m : mat4 T) (b : mat3 T) : mat4 T :=
  let put r (v : vec3 T) := V4 (vx v) (vy v) (vz v) (uw r) in
  M4 (put (m4r0 m) (m3r0 b)) (put (m4r1 m) (m3r1 b)) (put (m4r2 m) (m3r2 b)) (m4r3 m).

(** [m[:3, 3]] read and written *)
Definition trans3 (m : mat4 T) : vec3 T :=
  V3 (uw (m4r0 m)) (uw (m4r1 m)) (uw (m4r2 m)).

Definition set_trans3 (m : mat4 T) (v : vec3 T) : mat4 T :=
  let put r k := V4 (ux r) (uy r) (uz r) k in
  M4 (put (m4r0 m) (vx v)) (put (m4r1 m) (vy v)) (put (m4r2 m) (vz v)) (m4r3 m).

Definition skew (vector : vec3 T) : mat3 T :=
  M3 (V3 s0 (- vz vector) (vy vector))
     (V3 (vz vector) s0 (- vx vector))
     (V3 (- vy vector) (vx vector) s0).

(** [affine(A, x)]: each row of [x] gets a 1 appended, is multiplied by [A]
    and loses its last coordinate. *)
Definition affine1 (A : mat4 T) (x : vec3 T) : vec3 T :=
  let h := V4 (vx x) (vy x) (vz x) s1 in
  V3 (dot4 (m4r0 A) h) (dot4 (m4r1 A) h) (dot4 (m4r2 A) h).

Definition affine (A : mat4 T) (x : list (vec3 T)) : list (vec3 T) :=
  map (affine1 A) x.

Definition rotate_vec2vec (v1 v2 : vec3 T) : mat3 T :=
  let n := cross v1 v2 in
  let sinv := norm n in
  let cosv := dot v1 v2 in
  m3add (m3add eye3 (skew n))
        (m3divs (m3muls (matmul3 (skew n) (skew n)) (s1 - cosv)) (sinv * sinv)).

(** One row [1, x, y, xy, x^2, y^2] of the linear problem. *)
Definition design_row (xy : T * T) : vec6 T :=
  let (x, y) := xy in V6 s1 x y (x * y) (x * x) (y * y).

Definition design (X : list (T * T)) : list (vec6 T) := map design_row X.

Definition quad_fit `{LinAlg T} (X : list (T * T)) (b : list T) : result (vec6 T) :=
  let A := design X in
  '(C, _, _, _) <- lstsq A b ;;
  Ok C.

(** The first and second partial derivatives and the surface normal that
    [compute_principal_dir] forms at (x, y). *)
Definition r_x (x y : T) (C : vec6 T) : vec3 T :=
  V3 s1 s0 (lit 2 * c4 C * x + c1 C + c3 C * y).

Definition r_y (x y : T) (C : vec6 T) : vec3 T :=
  V3 s0 s1 (lit 2 * c5 C * y + c2 C + c3 C * x).

Definition r_x_cross_y (x y : T) (C : vec6 T) : vec3 T :=
  cross (r_x x y C) (r_y x y C).

Definition surf_normal (x y : T) (C : vec6 T) : vec3 T :=
  vdivs (r_x_cross_y x y C) (norm (r_x_cross_y x y C)).

(** The basis matrix [[L, M], [M, N]] of the second fundamental form. *)
Definition second_form (x y : T) (C : vec6 T) : mat2 T :=
  let r_xx := V3 s0 s0 (lit 2 * c4 C) in
  let r_yy := V3 s0 s0 (lit 2 * c5 C) in
  let r_xy := V3 s0 s0 (c3 C) in
  let n := surf_normal x y C in
  let L := dot r_xx n in
  let M := dot r_xy n in
  let N := dot r_yy n in
  M2 (V2 L M) (V2 M N).

Definition compute_principal_dir `{LinAlg T} (x y : T) (C : vec6 T)
  : result (vec3 T * vec3 T * vec3 T) :=
  let n := surf_normal x y C in
  let P := second_form x y C in
  '(_, V) <- eig P ;;
  (* V = np.concatenate((V, np.zeros((1, 2))), axis=0) *)
  let V0 := V3 (v2x (m2r0 V)) (v2x (m2r1 V)) s0 in
  let V1 := V3 (v2y (m2r0 V)) (v2y (m2r1 V)) s0 in
  Ok (V0, V1, n).

(** Elementwise operation on two 1-d arrays, with numpy's broadcasting of an
    array of length one. *)
Fixpoint zip_with (f : T -> T -> T) (u v : list T) : list T :=
  match u, v with
  | a :: u', b :: v' => f a b :: zip_with f u' v'
  | _, _ => []
  end.

Definition broadcast2 (f : T -> T -> T) (u v : list T) : result (list T) :=
  match u, v with
  | [a], _ => Ok (map (f a) v)
  | _, [b] => Ok (map (fun a => f a b) u)
  | _, _ => if Nat.eqb (length u) (length v) then Ok (zip_with f u v)
            else Raise ValueError
  end.

(** [l] is the keyword argument with default 90.0. *)
Definition interpolate_angle `{Trig T} (u v : list T) (t : T) (l : option T)
  : result (list T) :=
  let l := match l with Some l => l | None => lit 90 end in
  let theta := (t / l) * (tpi / lit 2) in
  uv <- broadcast2 (fun a b => a * tcos theta + b * tsin theta) u v ;;
  Ok (uv ++ [s0]).

Definition quadratic_surf (x y : T) (C : vec6 T) : T :=
  c0 C + c1 C * x + c2 C * y + c3 C * x * y + c4 C * x * x + c5 C * y * y.

Definition quadratic_surf_position (x y : T) (C : vec6 T) : vec3 T :=
  let z := quadratic_surf x y C in
  V3 x y z.

(** A 1-d array as the operand of a product with a 3x3 matrix. *)
Definition as_vec3 (p : list T) : result (vec3 T) :=
  match p with
  | [a; b; c] => Ok (V3 a b c)
  | _ => Raise ValueError
  end.

Definition quadratic_surf_rotation `{Trig T} `{LinAlg T} (x y t : T) (C : vec6 T)
  : result (vec3 T * vec3 T) :=
  '(v1, v2, n) <- compute_principal_dir x y C ;;
  p <- interpolate_angle [vx v1; vy v1] [vx v2; vy v2] t None ;;
  let z := V3 s0 s0 s1 in
  let R := rotate_vec2vec z n in
  p3 <- as_vec3 p ;;
  let pp := m3v R p3 in
  Ok (pp, n).

Definition define_coil_orientation (loc rot n : vec3 T) : mat4 T :=
  let y := vdivs rot (norm rot) in
  let z := vdivs n (norm n) in
  let x := cross y z in
  let c := loc in
  M4 (V4 (vx x) (vx y) (vx z) (vx c))
     (V4 (vy x) (vy y) (vy z) (vy c))
     (V4 (vz x) (vz y) (vz z) (vz c))
     (V4 s0 s0 s0 s1).
End Geometry.

(** ** domains.py *)

(** The two ndarray objects that [_construct_local_quadric] allocates with
    [np.eye(4)].  Python's [iR = R] and [iT = T] bind a second name to the
    same object, so a write through either name is seen through both. *)
Inductive obj := ObjR | ObjT.

Section Domains.
Context {K : Type} `{Scalar K} `{Trig K} `{LinAlg K} `{MeshLib K}.
Local Open Scope scalar_scope.

Definition heap := obj -> mat4 K.

Definition store (h : heap) (o : obj) (m : mat4 K) : heap :=
  fun o' =>
    match o, o' with
    | ObjR, ObjR | ObjT, ObjT => m
    | _, _ => h o'
    end.

(** The attributes of a constructed [QuadraticDomain]; [bounds] is the 3x2
    array of (min, max) per axis. *)
Record QuadraticDomain := {
  span : K;
  local_span : K;
  distance : K;
  C : vec6 K;
  iR : mat4 K;
  bounds : list (K * K)
}.

(** [np.where(nplalg.norm(coords - p, axis=1) < radius)] *)
Definition neighbours_ind (coords : list (vec3 K)) (p : vec3 K) (radius : K)
  : list nat :=
  np_where (map (fun c => norm (vsub c p) <? radius) coords).

(** [_construct_local_quadric], first part: the neighbourhood of [p] and the
    normal that [mg.get_normals] gives for it. *)
Definition patch_normals (local_span : K) (mesh : Mesh K) (p : vec3 K)
  : result (list (vec3 K) * vec3 K) :=
  let ind := neighbours_ind (coords mesh) p local_span in
  neighbours <- take (coords mesh) ind ;;
  tags <- take (nodes mesh) ind ;;
  let normals := get_normals tags (nodes mesh) (coords mesh) (trigs mesh) in
  Ok (neighbours, normals).

(** [_construct_local_quadric], second part: the transformation matrix and
    its inverse, built in place on the two arrays. *)
Definition local_frames (n p : vec3 K) : mat4 K * mat4 K :=
  let z := V3 s0 s0 s1 in
  let h : heap := fun _ => eye4 in
  let R := ObjR in
  let h := store h R (set_block3 (h R) (rotate_vec2vec n z)) in
  let T := ObjT in
  let h := store h T (set_trans3 (h T) (vopp p)) in
  let affine := matmul4 (h R) (h T) in
  (* Create inverse rotation *)
  let iR := R in
  let h := store h iR (set_block3 (h iR) (transpose3 (block3 (h iR)))) in
  (* Create inverse translation *)
  let iT := T in
  let h := store h iT (set_trans3 (h iT) (vopp (trans3 (h T)))) in
  let i_affine := matmul4 (h iT) (h iR) in
  (affine, i_affine).

Definition _construct_local_quadric (local_span : K) (mesh : Mesh K) (p : vec3 K)
  : result (vec6 K * mat4 K * mat4 K) :=
  '(neighbours, normals) <- patch_normals local_span mesh p ;;
  (* Usage average of normals for alignment *)
  let n := vdivs normals (norm normals) in
  let '(affine_, i_affine) := local_frames n p in
  (* Perform quadratic fitting *)
  let r_neighbours := affine affine_ neighbours in
  C <- quad_fit (map (fun r => (vx r, vy r)) r_neighbours) (map vz r_neighbours) ;;
  Ok (C, affine_, i_affine).

(** [np.min(a, axis=0)] and [np.max(a, axis=0)] of an Nx3 array; both raise
    on an empty one. *)
Definition smin (a b : K) : K := if b <? a then b else a.
Definition smax (a b : K) : K := if a <? b then b else a.

Definition np_reduce_axis0 (f : K -> K -> K) (a : list (vec3 K))
  : result (vec3 K) :=
  match a with
  | [] => Raise ValueError
  | r :: a' =>
      Ok (fold_left (fun m c => V3 (f (vx m) (vx c)) (f (vy m) (vy c)) (f (vz m) (vz c)))
                    a' r)
  end.

Definition _initialize_quadratic_surface (span local_span : K) (mesh : Mesh K)
  (p : vec3 K) : result (vec6 K * mat4 K * list (K * K)) :=
  let v := closest_point2surf p (coords mesh) in
  '(C, R, iR) <- _construct_local_quadric local_span mesh v ;;
  (* Calculate neighbours, rotate to flatten on XY plane *)
  let ind := neighbours_ind (coords mesh) v span in
  neighbours <- take (coords mesh) ind ;;
  let r_neighbours := affine R neighbours in
  minarr <- np_reduce_axis0 smin r_neighbours ;;
  maxarr <- np_reduce_axis0 smax r_neighbours ;;
  let bounds := [(vx minarr, vx maxarr); (vy minarr, vy maxarr);
                 (vz minarr, vz maxarr)] in
  Ok (C, iR, bounds).

(** [QuadraticDomain.__init__], with the defaults span=35, local_span=8,
    distance=1. *)
Definition QuadraticDomain_init (mesh : Mesh K) (initial_p : vec3 K)
  (span local_span distance : option K) : result QuadraticDomain :=
  let span := match span with Some s => s | None => lit 35 end in
  let local_span := match local_span with Some s => s | None => lit 8 end in
  let distance := match distance with Some s => s | None => lit 1 end in
  '(C, iR, bounds) <- _initialize_quadratic_surface span local_span mesh initial_p ;;
  Ok {| span := span; local_span := local_span; distance := distance;
        C := C; iR := iR; bounds := bounds |}.

(** [_get_sample], first part: the point of the coarse quadric mapped to
    global coordinates (the single row of the 1x3 array [p]) and snapped to
    the mesh. *)
Definition snapped (self : QuadraticDomain) (mesh : Mesh K) (x y : K) : vec3 K :=
  let pp := quadratic_surf_position x y (C self) in
  let p := affine1 (iR self) pp in
  closest_point2surf p (coords mesh).

Definition _get_sample (self : QuadraticDomain) (mesh : Mesh K) (x y : K)
  : result (vec3 K * mat4 K * vec6 K * vec3 K) :=
  let v := snapped self mesh x y in
  '(C, _, iR) <- _construct_local_quadric (local_span self) mesh v ;;
  '(_, _, n) <- compute_principal_dir s0 s0 C ;;
  (* Map normal to coordinate space *)
  let n_r := m3v (block3 iR) n in
  let n_r := vdivs n_r (norm n_r) in
  (* Push sample out by set distance *)
  let sample := vadd v (vmuls n_r (distance self)) in
  Ok (sample, iR, C, n).

(** [place_coil], up to the choice of the sign: the sample, the handle
    direction [rot] and the normal [n] in global coordinates. *)
Definition coil_frame (self : QuadraticDomain) (mesh : Mesh K) (x y theta : K)
  : result (vec3 K * vec3 K * vec3 K) :=
  '(sample, R, C, _) <- _get_sample self mesh x y ;;
  '(preaff_rot, preaff_norm) <- quadratic_surf_rotation s0 s0 theta C ;;
  let rot := m3v (block3 R) preaff_rot in
  let n := m3v (block3 R) preaff_norm in
  Ok (sample, rot, n).

(** [flip_norm] is the keyword argument with default True. *)
Definition place_coil (self : QuadraticDomain) (mesh : Mesh K) (x y theta : K)
  (flip_norm : option bool) : result (mat4 K) :=
  let flip_norm := match flip_norm with Some b => b | None => true end in
  '(sample, rot, n) <- coil_frame self mesh x y theta ;;
  let normflip := if flip_norm then lit (-1) else lit 1 in
  Ok (define_coil_orientation sample rot (smulv normflip n)).
End Domains.

Unset Implicit Arguments.

(** ** geometry.py, the remaining array functions *)

Section GeometryArrays.
Context {T : Type} `{Scalar T}.
Local Open Scope scalar_scope.

(** [unitize_arr]: the loop writes row [i] of the Nx3 result. *)
Definition unitize_arr (arr : list (vec3 T)) : list (vec3 T) :=
  map (fun r => vdivs r (norm r)) arr.

(** [(a * b).sum(axis=1)] for two Nx3 arrays, with numpy's broadcasting of
    an array of one row. *)
Fixpoint zip_rows (a b : list (vec3 T)) : list T :=
  match a, b with
  | r :: a', q :: b' => dot r q :: zip_rows a' b'
  | _, _ => []
  end.

Definition row_dots (a b : list (vec3 T)) : result (list T) :=
  match a, b with
  | [r], _ => Ok (map (dot r) b)
  | _, [q] => Ok (map (fun r => dot r q) a)
  | _, _ => if Nat.eqb (length a) (length b) then Ok (zip_rows a b)
            else Raise ValueError
  end.

Definition compute_parameteric_coordinates (u v w : list (vec3 T))
  : result (list T * list T) :=
  uu <- row_dots u u ;;
  uv <- row_dots u v ;;
  vv <- row_dots v v ;;
  wu <- row_dots w u ;;
  wv <- row_dots w v ;;
  (* D = (uv * uv) - (uu * vv) *)
  uvuv <- broadcast2 smul uv uv ;;
  uuvv <- broadcast2 smul uu vv ;;
  D <- broadcast2 ssub uvuv uuvv ;;
  (* s = ((uv * wv) - (vv * wu)) / D *)
  uvwv <- broadcast2 smul uv wv ;;
  vvwu <- broadcast2 smul vv wu ;;
  sn <- broadcast2 ssub uvwv vvwu ;;
  s <- broadcast2 sdiv sn D ;;
  (* t = ((uv * wu) - (uu * wv)) / D *)
  uvwu <- broadcast2 smul uv wu ;;
  uuwv <- broadcast2 smul uu wv ;;
  tn <- broadcast2 ssub uvwu uuwv ;;
  t <- broadcast2 sdiv tn D ;;
  Ok (s, t).
End GeometryArrays.

(** ** optimization/grid.py *)

(** [sklearn.utils.extmath.cartesian]: the rows of the cartesian product of
    the given 1-d arrays. *)
Class ExtMath (T : Type) := {
  cartesian : list (list T) -> list (list T)
}.

(** [np.arange(start, stop, step)] on integers, for a positive step, and
    [np.split(ary, indices)]: the sub-arrays [ary[:i1]], [ary[i1:i2]], ...,
    [ary[ik:]]. *)
Definition np_arange (start stop : nat) (step : positive) : list nat :=
  let s := Pos.to_nat step in
  map (fun k => (start + k * s)%nat) (seq 0 ((stop - start + (s - 1)) / s)).

Fixpoint split_from {A} (prev : nat) (ary : list A) (indices : list nat)
  : list (list A) :=
  match indices with
  | [] => [skipn prev ary]
  | i :: rest => firstn (i - prev) (skipn prev ary) :: split_from i ary rest
  end.

Definition np_split {A} (ary : list A) (indices : list nat) : list (list A) :=
  split_from 0 ary indices.

(** [arr[i]] for one index. *)
Definition index {A} (arr : list A) (i : nat) : result A :=
  match nth_error arr i with
  | Some a => Ok a
  | None => Raise IndexError
  end.

(** [np.vstack]: an empty sequence of arrays raises. *)
Definition np_vstack {A} (arrays : list (list A)) : result (list A) :=
  match arrays with
  | [] => Raise ValueError
  | _ => Ok (concat arrays)
  end.

(** What a call of [step] does: [raise StopIteration], return, or raise
    from numpy. *)
Inductive step_outcome (A : Type) :=
| StopIteration
| Stepped (a : A)
| Raised (e : exn).

Arguments StopIteration {A}.
Arguments Stepped {A} a.
Arguments Raised {A} e.

(** [np.isnan]; the exact reals have no NaN. *)
Class NanTest (T : Type) := {
  sisnan : T -> bool
}.


#[export] Instance f64_nantest : NanTest float := {
  sisnan := PrimFloat.is_nan
}.

Section Grid.
Context {T : Type} `{Scalar T} `{NanTest T} `{ExtMath T}.
Local Open Scope scalar_scope.

(** [np.linspace(start, stop, num)] *)
Definition np_linspace (start stop : T) (num : nat) : list T :=
  match num with
  | O => []
  | S O => [start]
  | S (S _ as div) =>
      let step := (stop - start) / lit (Z.of_nat div) in
      map (fun i => lit (Z.of_nat i) * step + start) (seq 0 div) ++ [stop]
  end.



(** [np.c_[points, values]]: each value appended to its row. *)
Fixpoint append_column (points : list (list T)) (values : list T) : list (list T) :=
  match points, values with
  | p :: points', v :: values' => (p ++ [v]) :: append_column points' values'
  | _, _ => []
  end.

Definition np_c_ (points : list (list T)) (values : list T) : result (list (list T)) :=
  if Nat.eqb (length points) (length values) then Ok (append_column points values)
  else Raise ValueError.

(** [arr[start:start + len(res)] = res]: the slice is clipped to the array,
    and a value of another length than the slice is broadcast if it has
    length one and refused otherwise. *)
Definition set_slice (arr : list T) (start : nat) (res : list T) : result (list T) :=
  let stop := (start + length res)%nat in
  let n := (Nat.min stop (length arr) - Nat.min start (length arr))%nat in
  if Nat.eqb n (length res) then Ok (firstn start arr ++ res ++ skipn stop arr)
  else match res with
       | [_] => Ok arr
       | _ => Raise ValueError
       end.

(** The attributes that [GridOptimizer.__init__] sets.  The counter
    [self.iteration] belongs to the base class [IterableOptimizer]; the
    methods below take its value as an argument. *)
Record GridOptimizer := {
  grid : list (list T);
  batches : list (list (list T));
  batchsize : positive;
  history : list T
}.

Definition GridOptimizer_init (batchsize : positive) (sampling_density : list nat)
  (bounds : list (T * T)) : GridOptimizer :=
  (* Construct Grid *)
  let dim_samples :=
    map (fun bd => np_linspace (fst (fst bd)) (snd (fst bd)) (snd bd))
        (combine bounds sampling_density) in
  let grid := cartesian dim_samples in
  (* Construct batches for evaluation *)
  let divisions := np_arange (Pos.to_nat batchsize) (length grid) batchsize in
  {| grid := grid;
     batches := np_split grid divisions;
     batchsize := batchsize;
     history := repeat (lit 0) (length grid) |}.

Definition completed (self : GridOptimizer) (iteration : nat) : bool :=
  Nat.leb (length (batches self)) iteration.


Definition get_history (self : GridOptimizer) (iteration : nat)
  : result (list (list T)) :=
  evaluated_points <- np_vstack (firstn iteration (batches self)) ;;
  let best_values := firstn (length evaluated_points) (history self) in
  np_c_ evaluated_points best_values.

(** [step], up to the call of [self._increment()]: the sampling points, the
    evaluations and the array that [self.history] holds afterwards.
    [evaluate_objective] is the method of the base class. *)
Definition step (evaluate_objective : list (list T) -> list T)
  (self : GridOptimizer) (iteration : nat)
  : step_outcome (list (list T) * list T * list T) :=
  if completed self iteration then StopIteration
  else
    match index (batches self) iteration with
    | Raise e => Raised e
    | Ok sampling_points =>
        let res := evaluate_objective sampling_points in
        let block_start := (iteration * Pos.to_nat (batchsize self))%nat in
        match set_slice (history self) block_start res with
        | Raise e => Raised e
        | Ok history' => Stepped (sampling_points, res, history')
        end
    end.
End Grid.

(** * Vocabulary of the statements *)

Local Open Scope R_scope.

(** Unfolds the array operations down to the real operations. *)
Ltac geom :=
  cbv beta iota zeta delta
    [lit sadd ssub smul sdiv sopp ssqrt R_scalar
     vx vy vz m3r0 m3r1 m3r2 ux uy uz uw m4r0 m4r1 m4r2 m4r3
     v2x v2y m2r0 m2r1 c0 c1 c2 c3 c4 c5 fst snd
     m3v m3add m3divs m3muls matmul3 transpose3 skew eye3 vadd
     vsub vopp vdivs vmuls smulv dot cross col0 col1 col2 s0 s1
     eye4 dot4 m4col0 m4col1 m4col2 m4col3 matmul4 block3 set_block3
     trans3 set_trans3 affine1 r_x r_y r_x_cross_y] in *.

Definition zero3 : vec3 R := V3 0 0 0.
Definition zaxis : vec3 R := V3 0 0 1.

(** [v / norm(v)] *)
Definition normalize (v : vec3 R) : vec3 R := vdivs v (norm v).

(** The columns of [m] have unit length and are pairwise orthogonal. *)
Definition orthonormal3 (m : mat3 R) : Prop :=
  norm (col0 m) = 1 /\ norm (col1 m) = 1 /\ norm (col2 m) = 1 /\
  dot (col0 m) (col1 m) = 0 /\ dot (col0 m) (col2 m) = 0 /\
  dot (col1 m) (col2 m) = 0.

(** A vector that is not parallel to the z axis. *)
Definition tilted (n : vec3 R) : Prop := vx n <> 0 \/ vy n <> 0.

(** [rotate_vec2vec] has the shape I + K + k K^2 with K = skew(n). *)
Definition rodrigues (n : vec3 R) (k : R) : mat3 R :=
  m3add (m3add eye3 (skew n)) (m3muls (matmul3 (skew n) (skew n)) k).

Definition zaxis64 : vec3 float := V3 0%float 0%float 1%float.

Definition all_nan : mat3 float :=
  M3 (V3 nan nan nan) (V3 nan nan nan) (V3 nan nan nan).

(** The angle [(t / l) * (np.pi / 2)] *)
Definition sweep (t l : R) : R := (t / l) * (PI / 2).

Definition dot6 (a b : vec6 R) : R :=
  c0 a * c0 b + c1 a * c1 b + c2 a * c2 b + c3 a * c3 b + c4 a * c4 b + c5 a * c5 b.

Definition zero6 : vec6 R := V6 0 0 0 0 0 0.

(** The residual sum of squares |A x - b|^2. *)
Fixpoint rss (A : list (vec6 R)) (b : list R) (x : vec6 R) : R :=
  match A, b with
  | row :: A', h :: b' => (dot6 row x - h) * (dot6 row x - h) + rss A' b' x
  | _, _ => 0
  end.

(** What scipy documents for [lstsq] with its default driver: the returned
    vector minimises |A x - b|, and has the least norm among the vectors
    that do. *)
Definition least_squares (A : list (vec6 R)) (b : list R) (x : vec6 R) : Prop :=
  forall y, rss A b x <= rss A b y.

Definition min_norm_least_squares (A : list (vec6 R)) (b : list R) (x : vec6 R)
  : Prop :=
  least_squares A b x /\ forall y, least_squares A b y -> dot6 x x <= dot6 y y.


(** The points and heights that [_construct_local_quadric] hands to
    [quad_fit]: [r_neighbours[:, :2]] and [r_neighbours[:, 2]]. *)
Definition fit_X (A : mat4 R) (nb : list (vec3 R)) : list (R * R) :=
  map (fun r => (vx r, vy r)) (affine A nb).

Definition fit_b (A : mat4 R) (nb : list (vec3 R)) : list R :=
  map vz (affine A nb).

(** The direction interpolated between the two columns of [V], as
    [quadratic_surf_rotation] forms it before rotating. *)
Definition tangent_dir (V : mat2 R) (t : R) : vec3 R :=
  V3 (v2x (m2r0 V) * cos (sweep t 90) + v2y (m2r0 V) * sin (sweep t 90))
     (v2x (m2r1 V) * cos (sweep t 90) + v2y (m2r1 V) * sin (sweep t 90))
     0.

Definition det2 (V : mat2 R) : R :=
  v2x (m2r0 V) * v2y (m2r1 V) - v2y (m2r0 V) * v2x (m2r1 V).

(** The rotation block of the forward frame built for the normal [n]. *)
Definition frame_rotation (n : vec3 R) : mat3 R := rotate_vec2vec n (V3 s0 s0 s1).

(** ** The mesh collaborator, from the specification *)

Section SpecMesh.
Context {K : Type} `{Scalar K}.
Local Open Scope scalar_scope.

(** [np.mean(a, axis=0)] of an Nx3 array. *)
Definition vmean (a : list (vec3 K)) : vec3 K :=
  vdivs (fold_left vadd a (V3 s0 s0 s0)) (lit (Z.of_nat (length a))).

(** Modelled from the spec: [fieldopt.geometry.mesh.get_normals] is not among
    the sources.  Section 6 of the specification gives the mesh collaborator
    an estimator that "returns a normal estimate for each index in
    neighbor_indices", and section 4.3, step 2, obtains the normal of the
    patch from it by averaging ("average and normalize to unit length").
    [_construct_local_quadric] itself only divides by the norm, so the
    average is what [get_normals] hands over. *)
Definition spec_get_normals
  (estimate_vertex_normals :
     list nat -> list nat -> list (vec3 K) -> list (nat * nat * nat) -> list (vec3 K))
  (point_tags all_tags : list nat) (coords : list (vec3 K))
  (trigs : list (nat * nat * nat)) : vec3 K :=
  vmean (estimate_vertex_normals point_tags all_tags coords trigs).

Definition spec_meshlib
  (closest : vec3 K -> list (vec3 K) -> vec3 K)
  (estimate_vertex_normals :
     list nat -> list nat -> list (vec3 K) -> list (nat * nat * nat) -> list (vec3 K))
  : MeshLib K :=
  {| closest_point2surf := closest;
     get_normals := spec_get_normals estimate_vertex_normals |}.
End SpecMesh.

(** ** A planar patch *)

(** One triangle in the plane x = 0; its unit normal is (1,0,0).  The patch
    is exactly planar, so the heights fitted over it are all zero and the
    least-squares solution is the zero vector; the basis matrix of the
    second fundamental form is then zero and its eigenvectors are the
    columns of the identity.  The interfaces below give these answers. *)
Definition origin : vec3 R := V3 0 0 0.

Definition tri_mesh : Mesh R :=
  {| coords := [V3 0 0 0; V3 0 1 0; V3 0 0 1];
     nodes := [1; 2; 3]%nat;
     trigs := [(1, 2, 3)%nat] |}.

(** Every point that the runs below snap to the mesh has the vertex
    (0,0,0) as its nearest mesh point; (1,0,0) is the normal of the patch. *)
Definition tri_meshlib : MeshLib R :=
  {| closest_point2surf := fun _ _ => origin;
     get_normals := fun _ _ _ _ => V3 1 0 0 |}.

Definition tri_vertex_normals
  (_ _ : list nat) (_ : list (vec3 R)) (_ : list (nat * nat * nat)) : list (vec3 R) :=
  [V3 1 0 0; V3 1 0 0; V3 1 0 0].

Definition eye2 : mat2 R := M2 (V2 1 0) (V2 0 1).

(** The rank 3 is the rank of the 3x6 system; the singular values, which
    [quad_fit] discards, are left out. *)
Definition flat_linalg : LinAlg R :=
  {| lstsq := fun _ _ => Ok (zero6, [], 3%nat, []);
     eig := fun _ => Ok (V2 0 0, eye2) |}.

(** A solver that answers with the plane z = x, for a patch that is not
    planar in its local frame. *)
Definition slope_linalg : LinAlg R :=
  {| lstsq := fun _ _ => Ok (V6 0 1 0 0 0 0, [], 3%nat, []);
     eig := fun _ => Ok (V2 0 0, eye2) |}.

(** The frames that [_construct_local_quadric] builds at the origin of the
    patch, from the normal (1,0,0). *)
Definition tri_forward : mat4 R :=
  fst (local_frames (vdivs (V3 1 0 0) (norm (V3 1 0 0))) origin).

Definition tri_inverse : mat4 R :=
  snd (local_frames (vdivs (V3 1 0 0) (norm (V3 1 0 0))) origin).

(** The domain that the constructor builds on the patch, anchored at the
    origin with the default radii. *)
Definition tri_domain : @QuadraticDomain R :=
  {| span := 35; local_span := 8; distance := 1;
     C := zero6; iR := tri_inverse;
     bounds := [(-1, 0); (0, 1); (0, 0)] |}.

(** The same patch in binary64.  [np.cos] and [np.sin] are given at the
    angle 0.0 only, where they are exactly 1.0 and 0.0. *)
Definition origin64 : vec3 float := V3 0%float 0%float 0%float.

Definition tri_mesh64 : Mesh float :=
  {| coords := [V3 0 0 0; V3 0 1 0; V3 0 0 1]%float;
     nodes := [1; 2; 3]%nat;
     trigs := [(1, 2, 3)%nat] |}.

Definition tri_meshlib64 : MeshLib float :=
  {| closest_point2surf := fun _ _ => origin64;
     get_normals := fun _ _ _ _ => V3 1%float 0%float 0%float |}.

Definition zero6_64 : vec6 float := V6 0%float 0%float 0%float 0%float 0%float 0%float.

(** [scipy.linalg.lstsq] checks its arguments with [check_finite=True] and
    raises ValueError on a NaN or an infinity; on the finite systems of the
    runs below, whose right-hand sides are zero, it answers with the zero
    vector. *)
Definition finite_row64 (r : vec6 float) : bool :=
  is_finite (c0 r) && is_finite (c1 r) && is_finite (c2 r) &&
  is_finite (c3 r) && is_finite (c4 r) && is_finite (c5 r).

Definition flat_linalg64 : LinAlg float :=
  {| lstsq := fun A b =>
       if forallb finite_row64 A && forallb is_finite b
       then Ok (zero6_64, [], 3%nat, [])
       else Raise ValueError;
     eig := fun _ => Ok (V2 0%float 0%float, M2 (V2 1%float 0%float) (V2 0%float 1%float)) |}.

Definition trig64_at_zero : Trig float :=
  {| tcos := fun x => if PrimFloat.eqb x 0%float then 1%float else nan;
     tsin := fun x => if PrimFloat.eqb x 0%float then 0%float else nan;
     tpi := 0x1.921fb54442d18p+1%float |}.

(** [QuadraticDomain(mesh, (0,0,0))] and then
    [place_coil(mesh, 0, 0, 0, flip_norm=False)] on the planar patch. *)
Definition tri_construct64 : result (@QuadraticDomain float) :=
  @QuadraticDomain_init float f64_scalar flat_linalg64 tri_meshlib64
    tri_mesh64 origin64 None None None.

Definition tri_place_coil64 : result (mat4 float) :=
  self <- tri_construct64 ;;
  @place_coil float f64_scalar trig64_at_zero flat_linalg64 tri_meshlib64
    self tri_mesh64 0%float 0%float 0%float (Some false).

(** The pose that the run returns. *)
Definition tri_pose64 : mat4 float :=
  (M4 (V4 nan nan 1 1) (V4 nan nan 0 0) (V4 nan nan 0 0) (V4 0 0 0 1))%float.

(** ** A horizontal patch *)

(** The flat unit square in the plane z = 0, anchored at its centre: four
    triangles around the vertex (0.5, 0.5, 0).  With the radius 0.2 the
    neighbourhood of the centre is the centre alone, and the normal
    estimated there is (0,0,1). *)
Definition centre64 : vec3 float := V3 0.5%float 0.5%float 0%float.

(** The radii 0.4 and 0.2, as binary64 rounds them. *)
Definition radius04 : float := 0x1.999999999999ap-2%float.
Definition radius02 : float := 0x1.999999999999ap-3%float.

Definition square_mesh64 : Mesh float :=
  {| coords := [V3 0 0 0; V3 1 0 0; V3 1 1 0; V3 0 1 0; V3 0.5 0.5 0]%float;
     nodes := [1; 2; 3; 4; 5]%nat;
     trigs := [(1, 2, 5); (2, 3, 5); (3, 4, 5); (4, 1, 5)]%nat |}.

Definition square_vertex_normals
  (point_tags _ : list nat) (_ : list (vec3 float)) (_ : list (nat * nat * nat))
  : list (vec3 float) :=
  map (fun _ => zaxis64) point_tags.

(** The only point snapped to this mesh is its centre, itself a vertex. *)
Definition square_meshlib64 : MeshLib float :=
  spec_meshlib (fun _ _ => centre64) square_vertex_normals.

(** The normal that [_construct_local_quadric] aligns, and the forward
    frame it builds from it, at the centre of the square. *)
Definition square_normal64 : vec3 float :=
  let normals := @get_normals float square_meshlib64 [5%nat] (nodes square_mesh64)
                   (coords square_mesh64) (trigs square_mesh64) in
  vdivs normals (norm normals).

Definition square_forward64 : mat4 float :=
  fst (local_frames square_normal64 centre64).

(** [QuadraticDomain(mesh, (0.5,0.5,0), span=0.4, local_span=0.2, distance=1.0)] *)
Definition square_construct64 : result (@QuadraticDomain float) :=
  @QuadraticDomain_init float f64_scalar flat_linalg64 square_meshlib64
    square_mesh64 centre64 (Some radius04) (Some radius02) (Some 1%float).

(** ** Vocabulary for the remaining laws *)

(** The determinant of a 3x3 matrix. *)
Definition det3 (m : mat3 R) : R := dot (m3r0 m) (cross (m3r1 m) (m3r2 m)).

(** The derivative of a curve in space, coordinate by coordinate. *)
Definition vderiv (f : R -> vec3 R) (x : R) (d : vec3 R) : Prop :=
  derivable_pt_lim (fun u => vx (f u)) x (vx d) /\
  derivable_pt_lim (fun u => vy (f u)) x (vy d) /\
  derivable_pt_lim (fun u => vz (f u)) x (vz d).

(** The parametric coordinates that [compute_parameteric_coordinates] forms
    for one row of its three arrays, and for all rows. *)
Definition row_coordinates (u v w : vec3 R) : R * R :=
  let D := dot u v * dot u v - dot u u * dot v v in
  ((dot u v * dot w v - dot v v * dot w u) / D,
   (dot u v * dot w u - dot u u * dot w v) / D).

Fixpoint rows_coordinates (u v w : list (vec3 R)) : list (R * R) :=
  match u, v, w with
  | a :: u', b :: v', c :: w' => row_coordinates a b c :: rows_coordinates u' v' w'
  | _, _, _ => []
  end.

(** The mask [np.linalg.norm(coords - p, axis=1) < radius], row by row. *)
Definition within (p : vec3 R) (radius : R) (c : vec3 R) : bool :=
  Rltb (norm (vsub c p)) radius.

(** [lo] and [hi] are the least and the greatest value of the coordinate
    [g] over the points [pts]. *)
Definition extent (g : vec3 R -> R) (pts : list (vec3 R)) (lo hi : R) : Prop :=
  (forall q, In q pts -> lo <= g q <= hi) /\
  (exists q, In q pts /\ g q = lo) /\
  (exists q, In q pts /\ g q = hi).

(** The rows [i * b .. i * b + b) of an array. *)
Definition chunk {A} (b : nat) (ary : list A) (i : nat) : list A :=
  firstn b (skipn (i * b) ary).

(** The cartesian product with the first array varying slowest, the order
    that sklearn documents for [cartesian]. *)
Fixpoint product (arrays : list (list R)) : list (list R) :=
  match arrays with
  | [] => [[]]
  | a :: rest => flat_map (fun x => map (cons x) (product rest)) a
  end.

Definition product_extmath : ExtMath R := {| cartesian := product |}.

(** A grid of three points on [0, 1], evaluated in batches of two, and the
    optimizer with the array [h] as its history. *)
Definition line_grid : @GridOptimizer R :=
  @GridOptimizer_init R R_scalar product_extmath 2%positive [3%nat] [(0, 1)].

Definition line_grid_after (h : list R) : @GridOptimizer R :=
  {| grid := grid line_grid; batches := batches line_grid;
     batchsize := 2%positive; history := h |}.

(** One dimension of the grid: the samples [np.linspace(b[0], b[1], d)]. *)
Definition dim_sample (bd : R * R * nat) : list R :=
  np_linspace (fst (fst bd)) (snd (fst bd)) (snd bd).

(** The factor [normflip] of [place_coil]. *)
Definition flip_sign (flip_norm : option bool) : R :=
  match flip_norm with
  | Some false => 1
  | _ => -1
  end.

(** * Laws in exact real arithmetic *)

Lemma dot_self_nonneg (a : vec3 R) : 0 <= dot a a.
Proof. destruct a; geom; nra. Qed.

Lemma norm_sq (a : vec3 R) : norm a * norm a = dot a a.
Proof. unfold norm. cbn [ssqrt R_scalar]. apply sqrt_sqrt, dot_self_nonneg. Qed.

Lemma norm_nonneg (a : vec3 R) : 0 <= norm a.
Proof. unfold norm. cbn [ssqrt R_scalar]. apply sqrt_pos. Qed.

Lemma norm_unit_iff (a : vec3 R) : norm a = 1 <-> dot a a = 1.
Proof.
  split; intros E.
  - rewrite <- norm_sq, E. ring.
  - unfold norm. cbn [ssqrt R_scalar]. rewrite E. apply sqrt_1.
Qed.

Lemma norm_zero_iff (a : vec3 R) : norm a = 0 <-> dot a a = 0.
Proof.
  split; intros E.
  - rewrite <- norm_sq, E. ring.
  - unfold norm. cbn [ssqrt R_scalar]. rewrite E. apply sqrt_0.
Qed.

Lemma dot_self_zero (a : vec3 R) : dot a a = 0 -> a = zero3.
Proof.
  destruct a as [a1 a2 a3]. geom. intros E. unfold zero3.
  assert (a1 = 0) by nra. assert (a2 = 0) by nra. assert (a3 = 0) by nra.
  subst. reflexivity.
Qed.

Lemma tilted_nonzero (n : vec3 R) : tilted n -> dot n n <> 0.
Proof.
  intros Ht E. apply dot_self_zero in E. subst n. destruct Ht as [Ht|Ht]; apply Ht; reflexivity.
Qed.

Lemma normalize_dot (v : vec3 R) : dot v v <> 0 -> dot (normalize v) (normalize v) = 1.
Proof.
  intros Hv. assert (Hn : norm v <> 0) by (rewrite norm_zero_iff; exact Hv).
  unfold normalize. pose proof (norm_sq v) as Hs. revert Hs Hn.
  generalize (norm v). intros k. destruct v as [a b c]. geom. intros Hs Hn.
  field_simplify_eq; [ lra | exact Hn ].
Qed.

Lemma normalize_unit (v : vec3 R) : dot v v <> 0 -> norm (normalize v) = 1.
Proof. intros Hv. apply norm_unit_iff, normalize_dot, Hv. Qed.

Lemma div_zero_inv (a k : R) : k <> 0 -> a / k = 0 -> a = 0.
Proof.
  intros Hk E. replace a with (a / k * k) by (field; exact Hk). rewrite E. ring.
Qed.

Lemma normalize_tilted (v : vec3 R) : tilted v -> tilted (normalize v).
Proof.
  intros Ht. pose proof (tilted_nonzero _ Ht) as Hv.
  assert (Hn : norm v <> 0) by (rewrite norm_zero_iff; exact Hv).
  unfold tilted, normalize in *. revert Hn. generalize (norm v). intros k Hk.
  destruct v as [a b c]. geom.
  destruct Ht as [Ht|Ht]; [left|right]; intros E; apply Ht;
    exact (div_zero_inv _ _ Hk E).
Qed.

(** ** Vector identities *)

Lemma cross_dot_l (a b : vec3 R) : dot (cross a b) a = 0.
Proof. destruct a, b. geom. ring. Qed.

Lemma cross_dot_r (a b : vec3 R) : dot (cross a b) b = 0.
Proof. destruct a, b. geom. ring. Qed.

Lemma lagrange (a b : vec3 R) :
  dot (cross a b) (cross a b) = dot a a * dot b b - dot a b * dot a b.
Proof. destruct a, b. geom. ring. Qed.

Lemma dot_comm (a b : vec3 R) : dot a b = dot b a.
Proof. destruct a, b. geom. ring. Qed.

Lemma cross_zaxis_r (n : vec3 R) : tilted n -> dot (cross n zaxis) (cross n zaxis) <> 0.
Proof.
  unfold tilted, zaxis. destruct n as [a b c]. geom. intros Ht E.
  assert (a = 0) by nra. assert (b = 0) by nra. lra.
Qed.

Lemma cross_zaxis_l (n : vec3 R) : tilted n -> dot (cross zaxis n) (cross zaxis n) <> 0.
Proof.
  unfold tilted, zaxis. destruct n as [a b c]. geom. intros Ht E.
  assert (a = 0) by nra. assert (b = 0) by nra. lra.
Qed.

(** ** Rodrigues' rotation *)

Lemma rotate_vec2vec_rodrigues (a b : vec3 R) :
  rotate_vec2vec a b =
  rodrigues (cross a b) ((1 - dot a b) / dot (cross a b) (cross a b)).
Proof.
  unfold rotate_vec2vec, rodrigues. cbn [smul R_scalar]. rewrite norm_sq.
  generalize (dot (cross a b) (cross a b)) (dot a b) (cross a b).
  intros s c [n1 n2 n3]. geom. unfold Rdiv. f_equal; f_equal; ring.
Qed.

Lemma rodrigues_coeff (a b : vec3 R) :
  dot a a = 1 -> dot b b = 1 -> dot (cross a b) (cross a b) <> 0 ->
  let k := (1 - dot a b) / dot (cross a b) (cross a b) in
  2 * k - 1 - k * k * dot (cross a b) (cross a b) = 0.
Proof.
  intros Ha Hb Hn k. subst k. pose proof (lagrange a b) as L.
  rewrite Ha, Hb in L. revert Hn L.
  generalize (dot (cross a b) (cross a b)) (dot a b). intros s c Hs L.
  field_simplify_eq; [ nra | exact Hs ].
Qed.

Lemma rodrigues_orth_l (n : vec3 R) (k : R) :
  2 * k - 1 - k * k * dot n n = 0 ->
  matmul3 (transpose3 (rodrigues n k)) (rodrigues n k) = eye3.
Proof.
  intros Hk. destruct n as [n1 n2 n3]. unfold rodrigues. geom.
  f_equal; f_equal; nsatz.
Qed.

Lemma rodrigues_orth_r (n : vec3 R) (k : R) :
  2 * k - 1 - k * k * dot n n = 0 ->
  matmul3 (rodrigues n k) (transpose3 (rodrigues n k)) = eye3.
Proof.
  intros Hk. destruct n as [n1 n2 n3]. unfold rodrigues. geom.
  f_equal; f_equal; nsatz.
Qed.

(** [rotate_vec2vec(a, b) @ a] is [|a|^2 b] whenever the divisor sinv^2 is
    not zero. *)
Lemma rotate_vec2vec_image (a b : vec3 R) :
  dot (cross a b) (cross a b) <> 0 ->
  m3v (rotate_vec2vec a b) a = smulv (dot a a) b.
Proof.
  intros Hn. unfold rotate_vec2vec. cbn [smul R_scalar]. rewrite norm_sq.
  destruct a as [a1 a2 a3], b as [b1 b2 b3]. geom.
  f_equal; field; exact Hn.
Qed.

(** ** Orthonormal matrices *)

Lemma orthonormal3_gram (m : mat3 R) :
  orthonormal3 m <-> matmul3 (transpose3 m) m = eye3.
Proof.
  unfold orthonormal3. rewrite !norm_unit_iff.
  destruct m as [[a b c] [d e f] [g h i]]. geom. split.
  - intros (H0 & H1 & H2 & H01 & H02 & H12).
    f_equal; f_equal; lra.
  - intros E. injection E as E00 E01 E02 E10 E11 E12 E20 E21 E22.
    repeat split; assumption.
Qed.

Lemma gram_preserves_dot (m : mat3 R) (a b : vec3 R) :
  matmul3 (transpose3 m) m = eye3 -> dot (m3v m a) (m3v m b) = dot a b.
Proof.
  intros E.
  assert (G : dot (m3v m a) (m3v m b) = dot a (m3v (matmul3 (transpose3 m) m) b)).
  { destruct m as [[? ? ?] [? ? ?] [? ? ?]], a, b. geom. ring. }
  rewrite G, E. destruct a, b. geom. ring.
Qed.

Lemma orthonormal3_dot (m : mat3 R) (a b : vec3 R) :
  orthonormal3 m -> dot (m3v m a) (m3v m b) = dot a b.
Proof. intros Hm. apply gram_preserves_dot, orthonormal3_gram, Hm. Qed.

Lemma transpose3_involutive (m : mat3 R) : transpose3 (transpose3 m) = m.
Proof. destruct m as [[? ? ?] [? ? ?] [? ? ?]]. reflexivity. Qed.

(** A left inverse of a square matrix is a right inverse. *)
Lemma gram_transpose (m : mat3 R) :
  matmul3 (transpose3 m) m = eye3 -> matmul3 m (transpose3 m) = eye3.
Proof.
  destruct m as [[a b c] [d e f] [g h i]]. geom. intros E.
  injection E as E00 E01 E02 E10 E11 E12 E20 E21 E22.
  clear E10 E20 E21.
  f_equal; f_equal; nsatz.
Qed.

(** Away from the degenerate (anti)parallel case the matrix of
    [rotate_vec2vec] is a rotation that takes [a] to [b]. *)
Lemma rotate_vec2vec_orthonormal (a b : vec3 R) :
  dot a a = 1 -> dot b b = 1 -> dot (cross a b) (cross a b) <> 0 ->
  orthonormal3 (rotate_vec2vec a b) /\
  orthonormal3 (transpose3 (rotate_vec2vec a b)) /\
  m3v (rotate_vec2vec a b) a = b.
Proof.
  intros Ha Hb Hn. pose proof (rodrigues_coeff a b Ha Hb Hn) as Hk. cbv zeta in Hk.
  split; [ | split ].
  - rewrite orthonormal3_gram, rotate_vec2vec_rodrigues.
    apply rodrigues_orth_l, Hk.
  - rewrite orthonormal3_gram, transpose3_involutive, rotate_vec2vec_rodrigues.
    apply rodrigues_orth_r, Hk.
  - rewrite (rotate_vec2vec_image a b Hn), Ha. destruct b. geom. f_equal; ring.
Qed.

(** ** The frames of [_construct_local_quadric] *)

Section Frames.
Variables n p : vec3 R.

Lemma frames_forward_block : block3 (fst (local_frames n p)) = (frame_rotation n).
Proof.
  unfold local_frames, store, frame_rotation. cbn [fst].
  generalize (rotate_vec2vec n (V3 s0 s0 s1)). intros [[a b c] [d e f] [g h i]].
  destruct p as [p1 p2 p3]. geom. f_equal; f_equal; ring.
Qed.

Lemma frames_inverse_block : block3 (snd (local_frames n p)) = transpose3 (frame_rotation n).
Proof.
  unfold local_frames, store, frame_rotation. cbn [snd].
  generalize (rotate_vec2vec n (V3 s0 s0 s1)). intros [[a b c] [d e f] [g h i]].
  destruct p as [p1 p2 p3]. geom. f_equal; f_equal; ring.
Qed.

Lemma frames_forward_apply (x : vec3 R) :
  affine1 (fst (local_frames n p)) x = m3v (frame_rotation n) (vsub x p).
Proof.
  unfold local_frames, store, frame_rotation. cbn [fst].
  generalize (rotate_vec2vec n (V3 s0 s0 s1)). intros [[a b c] [d e f] [g h i]].
  destruct p as [p1 p2 p3], x as [x1 x2 x3]. geom. f_equal; ring.
Qed.

Lemma frames_inverse_apply (y : vec3 R) :
  affine1 (snd (local_frames n p)) y = vadd (m3v (transpose3 (frame_rotation n)) y) p.
Proof.
  unfold local_frames, store, frame_rotation. cbn [snd].
  generalize (rotate_vec2vec n (V3 s0 s0 s1)). intros [[a b c] [d e f] [g h i]].
  destruct p as [p1 p2 p3], y as [y1 y2 y3]. geom. f_equal; ring.
Qed.

Lemma frames_round_trip (x : vec3 R) :
  orthonormal3 (block3 (fst (local_frames n p))) ->
  affine1 (snd (local_frames n p)) (affine1 (fst (local_frames n p)) x) = x.
Proof.
  rewrite frames_forward_block, frames_forward_apply, frames_inverse_apply.
  intros Ho. apply orthonormal3_gram in Ho.
  assert (G : forall v, m3v (transpose3 (frame_rotation n)) (m3v (frame_rotation n) v) = m3v (matmul3 (transpose3 (frame_rotation n)) (frame_rotation n)) v).
  { intros v. destruct (frame_rotation n) as [[? ? ?] [? ? ?] [? ? ?]], v. geom. f_equal; ring. }
  rewrite G, Ho. destruct x, p. geom. f_equal; ring.
Qed.

Lemma frames_product_l :
  matmul3 (transpose3 (frame_rotation n)) (frame_rotation n) = eye3 ->
  matmul4 (snd (local_frames n p)) (fst (local_frames n p)) = eye4.
Proof.
  unfold local_frames, store, frame_rotation. cbn [fst snd].
  generalize (rotate_vec2vec n (V3 s0 s0 s1)). intros [[a b c] [d e f] [g h i]].
  destruct p as [p1 p2 p3]. geom. intros E.
  injection E as E00 E01 E02 E10 E11 E12 E20 E21 E22.
  clear E10 E20 E21.
  f_equal; f_equal; nsatz.
Qed.

Lemma frames_product_r :
  matmul3 (frame_rotation n) (transpose3 (frame_rotation n)) = eye3 ->
  matmul4 (fst (local_frames n p)) (snd (local_frames n p)) = eye4.
Proof.
  unfold local_frames, store, frame_rotation. cbn [fst snd].
  generalize (rotate_vec2vec n (V3 s0 s0 s1)). intros [[a b c] [d e f] [g h i]].
  destruct p as [p1 p2 p3]. geom. intros E.
  injection E as E00 E01 E02 E10 E11 E12 E20 E21 E22.
  clear E10 E20 E21.
  f_equal; f_equal; nsatz.
Qed.
End Frames.

(** ** Index arrays *)

Lemma mapM_ok {A B} (f : A -> result B) (l : list A) :
  (forall a, In a l -> exists b, f a = Ok b) -> exists bs, mapM f l = Ok bs.
Proof.
  induction l as [|a l IH]; intros Hf; cbn [mapM].
  - eexists; reflexivity.
  - destruct (Hf a (or_introl eq_refl)) as [b Eb]. rewrite Eb. cbn [bind].
    destruct IH as [bs Ebs]; [ intros a' Ha'; apply Hf; right; exact Ha' | ].
    rewrite Ebs. cbn [bind]. eexists; reflexivity.
Qed.

Lemma where_from_range (mask : list bool) :
  forall k i, In i (where_from k mask) -> (k <= i < k + length mask)%nat.
Proof.
  induction mask as [|b m IH]; intros k i Hi; cbn [where_from] in Hi.
  - destruct Hi.
  - apply in_app_or in Hi. destruct Hi as [Hi|Hi].
    + destruct b; cbn in Hi; [ destruct Hi as [<-|[]] | destruct Hi ]. cbn [length]. lia.
    + apply IH in Hi. cbn [length]. lia.
Qed.

(** Indexing an array with the indices [np.where] found on a mask of the
    same length never raises. *)
Lemma take_where_ok {A} (arr : list A) (mask : list bool) :
  length mask = length arr -> exists l, take arr (np_where mask) = Ok l.
Proof.
  intros Hlen. unfold take, np_where. apply mapM_ok. intros i Hi.
  apply where_from_range in Hi.
  destruct (nth_error arr i) as [a|] eqn:E.
  - eexists; reflexivity.
  - apply nth_error_None in E. lia.
Qed.

(** ** The degenerate case of [rotate_vec2vec] *)

(** In exact arithmetic the divisor [sinv**2] is zero whenever both
    arguments are the same vector. *)
Lemma rotate_vec2vec_divisor_zero (v : vec3 R) :
  norm (cross v v) * norm (cross v v) = 0.
Proof. rewrite norm_sq. destruct v. geom. ring. Qed.

(** C2: [rotate_vec2vec((0,0,1),(0,0,1))] should be the identity matrix with
    no NaN entry.  Run in binary64 it is not: no exception is raised, but
    the quotient by [sinv**2 = 0] makes every entry NaN. *)
Theorem rotate_vec2vec_parallel_is_nan :
  rotate_vec2vec zaxis64 zaxis64 = all_nan /\
  rotate_vec2vec zaxis64 zaxis64 <> eye3.
Proof.
  assert (E : rotate_vec2vec zaxis64 zaxis64 = all_nan) by (vm_compute; reflexivity).
  split; [ exact E | ]. rewrite E. vm_compute. intros D. discriminate D.
Qed.

(** On an exactly planar patch the fitted coefficients are zero, the normal
    of the quadric at the origin is +Z itself, and [quadratic_surf_rotation]
    calls [rotate_vec2vec] on two equal vectors: the divisor is zero. *)
Lemma planar_fit_divisor_zero :
  surf_normal 0 0 zero6 = zaxis /\
  norm (cross zaxis (surf_normal 0 0 zero6)) * norm (cross zaxis (surf_normal 0 0 zero6)) = 0.
Proof.
  assert (E : surf_normal 0 0 zero6 = zaxis).
  { unfold surf_normal, norm. cbn [ssqrt R_scalar].
    replace (dot (r_x_cross_y 0 0 zero6) (r_x_cross_y 0 0 zero6)) with 1
      by (unfold zero6; geom; ring).
    rewrite sqrt_1. unfold zero6, zaxis. geom. f_equal; field. }
  split; [ exact E | ]. rewrite E. apply rotate_vec2vec_divisor_zero.
Qed.

(** C1: every pose returned by [place_coil] should have a rotation block
    with unit-length, pairwise orthogonal columns.  Run in binary64 on the
    planar triangle, the constructor succeeds and
    [place_coil(mesh, 0, 0, 0, flip_norm=False)] returns a pose whose x and
    y columns are NaN: the local rotation is the degenerate case of
    [rotate_vec2vec]. *)
Theorem place_coil_planar_patch_is_nan :
  tri_place_coil64 = Ok tri_pose64 /\
  norm (col0 (block3 tri_pose64)) = nan /\
  norm (col1 (block3 tri_pose64)) = nan /\
  dot (col0 (block3 tri_pose64)) (col1 (block3 tri_pose64)) = nan /\
  norm (col0 (block3 tri_pose64)) <> 1%float.
Proof.
  repeat split; try (vm_compute; reflexivity).
  vm_compute. intros D. discriminate D.
Qed.

(** C6: the forward frame of [_construct_local_quadric] should take the
    averaged, normalised normal of the patch to +Z.  Run in binary64 on the
    flat unit square, whose averaged normal is (0,0,1) itself, every entry
    of the rotation block is NaN, the normal is not taken to +Z, and the
    constructor ends with the ValueError that [lstsq] raises on the NaN
    system. *)
Theorem horizontal_patch_frame_is_nan :
  @patch_normals float f64_scalar square_meshlib64 radius02 square_mesh64 centre64
  = Ok ([centre64], zaxis64) /\
  square_normal64 = zaxis64 /\
  block3 square_forward64 = all_nan /\
  m3v (block3 square_forward64) square_normal64 = V3 nan nan nan /\
  m3v (block3 square_forward64) square_normal64 <> zaxis64 /\
  square_construct64 = Raise ValueError.
Proof.
  repeat split; try (vm_compute; reflexivity).
  vm_compute. intros D. discriminate D.
Qed.

(** ** The normal of the height-field quadric *)

Lemma r_x_cross_y_z (x y : R) (C : vec6 R) : vz (r_x_cross_y x y C) = 1.
Proof. geom. ring. Qed.

Lemma r_x_cross_y_nonzero (x y : R) (C : vec6 R) :
  1 <= dot (r_x_cross_y x y C) (r_x_cross_y x y C).
Proof.
  pose proof (r_x_cross_y_z x y C) as Hz. revert Hz.
  generalize (r_x_cross_y x y C). intros [a b c]. geom. intros ->. nra.
Qed.

Lemma surf_normal_unit (x y : R) (C : vec6 R) : norm (surf_normal x y C) = 1.
Proof.
  apply normalize_unit. pose proof (r_x_cross_y_nonzero x y C). lra.
Qed.


Section Principal.
Context `{LinAlg R}.

Lemma compute_principal_dir_inv (x y : R) (C : vec6 R) v1 v2 n :
  compute_principal_dir x y C = Ok (v1, v2, n) ->
  exists w V, eig (second_form x y C) = Ok (w, V) /\
    v1 = V3 (v2x (m2r0 V)) (v2x (m2r1 V)) 0 /\
    v2 = V3 (v2y (m2r0 V)) (v2y (m2r1 V)) 0 /\
    n = surf_normal x y C.
Proof.
  unfold compute_principal_dir. destruct (eig (second_form x y C)) as [[w V]|e]; cbn [bind].
  - intros E. injection E as <- <- <-. exists w, V. repeat split.
  - discriminate.
Qed.

(** [compute_principal_dir] returns whenever [eig] does. *)
Lemma compute_principal_dir_ok (x y : R) (C : vec6 R) w V :
  eig (second_form x y C) = Ok (w, V) ->
  compute_principal_dir x y C =
  Ok (V3 (v2x (m2r0 V)) (v2x (m2r1 V)) 0, V3 (v2y (m2r0 V)) (v2y (m2r1 V)) 0,
      surf_normal x y C).
Proof. unfold compute_principal_dir. intros ->. reflexivity. Qed.

End Principal.

(** ** Interpolation between two directions *)

Lemma broadcast2_same_length (f : R -> R -> R) (u v : list R) :
  length u = length v -> broadcast2 f u v = Ok (zip_with f u v).
Proof.
  intros Hl. unfold broadcast2.
  destruct u as [|a [|a' u]], v as [|b [|b' v]]; try discriminate Hl; try reflexivity.
  cbn [length] in *. rewrite (proj2 (Nat.eqb_eq _ _) Hl). reflexivity.
Qed.



Lemma interpolate_angle_eq (u v : list R) (t P : R) :
  length u = length v ->
  interpolate_angle u v t (Some P) =
  Ok (zip_with (fun a b => a * cos (sweep t P) + b * sin (sweep t P)) u v ++ [0]).
Proof.
  intros Hl. unfold interpolate_angle.
  rewrite (broadcast2_same_length _ u v Hl). reflexivity.
Qed.




(** ** The least-squares problem of [quad_fit] *)

Lemma rss_nonneg (A : list (vec6 R)) : forall b x, 0 <= rss A b x.
Proof.
  induction A as [|row A IH]; intros [|h b] x; cbn [rss]; try lra.
  specialize (IH b x). pose proof (Rle_0_sqr (dot6 row x - h)) as Hs.
  unfold Rsqr in Hs. lra.
Qed.

Lemma rss_zero_heights (A : list (vec6 R)) :
  forall b, Forall (fun h => h = 0) b -> rss A b zero6 = 0.
Proof.
  induction A as [|row A IH]; intros [|h b] Hb; cbn [rss]; try reflexivity.
  inversion Hb as [|? ? Hh Hb']; subst. rewrite (IH b Hb').
  unfold dot6, zero6. cbn [c0 c1 c2 c3 c4 c5]. ring.
Qed.

Lemma dot6_zero (x : vec6 R) : dot6 x x <= 0 -> x = zero6.
Proof.
  destruct x as [a b c d e f]. unfold dot6, zero6. cbn [c0 c1 c2 c3 c4 c5]. intros Hx.
  assert (a = 0) by nra. assert (b = 0) by nra. assert (c = 0) by nra.
  assert (d = 0) by nra. assert (e = 0) by nra. assert (f = 0) by nra.
  subst. reflexivity.
Qed.

Lemma quad_fit_inv `{LinAlg R} (X : list (R * R)) (b : list R) (C : vec6 R) :
  quad_fit X b = Ok C ->
  exists res rk sv, lstsq (design X) b = Ok (C, res, rk, sv).
Proof.
  unfold quad_fit. destruct (lstsq (design X) b) as [[[[x res] rk] sv]|e]; cbn [bind].
  - intros E. injection E as <-. exists res, rk, sv. reflexivity.
  - discriminate.
Qed.

(** C8: when every target height is zero and [lstsq] returns the
    minimum-norm least-squares solution, as scipy documents, the coefficient
    vector returned by [quad_fit] is zero: b, c, d, e, f vanish and the
    fitted surface is flat. *)
Theorem quad_fit_planar `{LinAlg R} (X : list (R * R)) (b : list R) (C : vec6 R) :
  Forall (fun h => h = 0) b ->
  (forall x res rk sv, lstsq (design X) b = Ok (x, res, rk, sv) ->
     min_norm_least_squares (design X) b x) ->
  quad_fit X b = Ok C ->
  (c1 C = 0 /\ c2 C = 0 /\ c3 C = 0 /\ c4 C = 0 /\ c5 C = 0) /\
  forall x y, quadratic_surf x y C = 0.
Proof.
  intros Hb Hspec Hfit.
  destruct (quad_fit_inv _ _ _ Hfit) as (res & rk & sv & Hl).
  destruct (Hspec _ _ _ _ Hl) as [_ Hmin].
  assert (Hz : least_squares (design X) b zero6).
  { intros y. rewrite (rss_zero_heights (design X) b Hb). apply rss_nonneg. }
  specialize (Hmin zero6 Hz).
  assert (E : C = zero6).
  { apply dot6_zero. etransitivity; [ exact Hmin | ].
    unfold dot6, zero6. cbn [c0 c1 c2 c3 c4 c5]. lra. }
  subst C. split; [ repeat split | ].
  intros x y. unfold quadratic_surf, zero6. geom. ring.
Qed.

(** ** The local quadric *)

Lemma frames_orthonormal (n p : vec3 R) :
  tilted n ->
  orthonormal3 (block3 (fst (local_frames (normalize n) p))) /\
  orthonormal3 (block3 (snd (local_frames (normalize n) p))) /\
  m3v (block3 (fst (local_frames (normalize n) p))) (normalize n) = zaxis.
Proof.
  intros Ht. rewrite frames_forward_block, frames_inverse_block.
  unfold frame_rotation. apply rotate_vec2vec_orthonormal.
  - apply normalize_dot, tilted_nonzero, Ht.
  - unfold zaxis. geom. ring.
  - apply (cross_zaxis_r _ (normalize_tilted _ Ht)).
Qed.

Section LocalQuadric.
Context `{LinAlg R} `{MeshLib R}.

Lemma patch_normals_ok (ls : R) (mesh : Mesh R) (p : vec3 R) :
  length (nodes mesh) = length (coords mesh) ->
  exists nb tags,
    take (nodes mesh) (neighbours_ind (coords mesh) p ls) = Ok tags /\
    patch_normals ls mesh p =
    Ok (nb, get_normals tags (nodes mesh) (coords mesh) (trigs mesh)).
Proof.
  intros Hlen. unfold patch_normals, neighbours_ind.
  set (mask := map _ (coords mesh)).
  assert (Hm : length mask = length (coords mesh)) by apply length_map.
  destruct (take_where_ok (coords mesh) mask Hm) as [nb ->].
  destruct (take_where_ok (nodes mesh) mask) as [tags ->]; [ congruence | ].
  exists nb, tags. split; reflexivity.
Qed.

Lemma construct_eq (ls : R) (mesh : Mesh R) (p : vec3 R) nb nrm :
  patch_normals ls mesh p = Ok (nb, nrm) ->
  _construct_local_quadric ls mesh p =
  let A := fst (local_frames (normalize nrm) p) in
  let iA := snd (local_frames (normalize nrm) p) in
  C <- quad_fit (fit_X A nb) (fit_b A nb) ;; Ok (C, A, iA).
Proof.
  intros E. unfold _construct_local_quadric. rewrite E. cbn [bind].
  fold (normalize nrm). destruct (local_frames (normalize nrm) p) as [A iA].
  reflexivity.
Qed.

Lemma construct_inv (ls : R) (mesh : Mesh R) (p : vec3 R) C A iA :
  _construct_local_quadric ls mesh p = Ok (C, A, iA) ->
  exists nb nrm,
    patch_normals ls mesh p = Ok (nb, nrm) /\
    A = fst (local_frames (normalize nrm) p) /\
    iA = snd (local_frames (normalize nrm) p) /\
    quad_fit (fit_X A nb) (fit_b A nb) = Ok C.
Proof.
  intros E. destruct (patch_normals ls mesh p) as [[nb nrm]|e] eqn:Ep.
  - rewrite (construct_eq _ _ _ _ _ Ep) in E. cbv zeta in E.
    destruct (quad_fit _ _) as [C'|e] eqn:Eq; cbn [bind] in E; [ | discriminate ].
    injection E as <- <- <-. exists nb, nrm. repeat split. exact Eq.
  - unfold _construct_local_quadric in E. rewrite Ep in E. discriminate.
Qed.

(** C4: for the frame pair that [_construct_local_quadric] returns, the
    rotation block of the inverse frame is the transpose of the forward
    one and, when the forward rotation block is orthonormal, the inverse
    frame is the algebraic inverse of the forward frame: their products
    are the identity matrix, and the inverse frame applied after the
    forward frame gives back every point set. *)
Theorem local_frames_round_trip (ls : R) (mesh : Mesh R) (p : vec3 R) C A iA :
  _construct_local_quadric ls mesh p = Ok (C, A, iA) ->
  orthonormal3 (block3 A) ->
  block3 iA = transpose3 (block3 A) /\
  matmul4 iA A = eye4 /\
  matmul4 A iA = eye4 /\
  forall pts, affine iA (affine A pts) = pts.
Proof.
  intros E Ho. destruct (construct_inv _ _ _ _ _ _ E) as (nb & nrm & _ & -> & -> & _).
  pose proof Ho as Hg. rewrite frames_forward_block in Hg.
  apply orthonormal3_gram in Hg.
  split; [ | split; [ | split ] ].
  - rewrite frames_forward_block, frames_inverse_block. reflexivity.
  - apply frames_product_l, Hg.
  - apply frames_product_r, gram_transpose, Hg.
  - intros pts. unfold affine. rewrite map_map.
    rewrite <- (map_id pts) at 2. apply map_ext. intros x.
    apply frames_round_trip, Ho.
Qed.

(** What [_get_sample] computes, step by step. *)
Lemma get_sample_inv (self : QuadraticDomain) (mesh : Mesh R) (x y : R)
  sample iA C n :
  _get_sample self mesh x y = Ok (sample, iA, C, n) ->
  let v := snapped self mesh x y in
  exists A w V,
    _construct_local_quadric (local_span self) mesh v = Ok (C, A, iA) /\
    eig (second_form 0 0 C) = Ok (w, V) /\
    n = surf_normal 0 0 C /\
    sample = vadd v (vmuls (normalize (m3v (block3 iA) n)) (distance self)).
Proof.
  intros E v. unfold _get_sample in E. fold v in E.
  destruct (_construct_local_quadric (local_span self) mesh v)
    as [[[C' A] iA']|e] eqn:Ec; cbn [bind] in E; [ | discriminate ].
  destruct (compute_principal_dir s0 s0 C') as [[[v1 v2] n']|e] eqn:Ed;
    cbn [bind] in E; [ | discriminate ].
  injection E as <- <- <- <-.
  destruct (compute_principal_dir_inv _ _ _ _ _ _ Ed) as (w & V & Ee & _ & _ & En).
  exists A, w, V. repeat split; assumption.
Qed.
End LocalQuadric.

(** ** The pose *)

Lemma normalized_dot (a b : vec3 R) :
  dot (normalize a) (normalize b) = dot a b / (norm a * norm b).
Proof.
  unfold normalize. generalize (norm a) (norm b). intros ka kb.
  destruct a, b. geom. unfold Rdiv.
  destruct (Req_dec ka 0) as [->|Ha]; [ rewrite Rmult_0_l, !Rinv_0; ring | ].
  destruct (Req_dec kb 0) as [->|Hb]; [ rewrite Rmult_0_r, !Rinv_0; ring | ].
  field. split; assumption.
Qed.

(** [define_coil_orientation] on a handle direction and a normal that are
    not zero and orthogonal to each other. *)
Lemma define_coil_orientation_orthonormal (loc rot n : vec3 R) :
  dot rot rot <> 0 -> dot n n <> 0 -> dot rot n = 0 ->
  orthonormal3 (block3 (define_coil_orientation loc rot n)) /\
  m4r3 (define_coil_orientation loc rot n) = V4 0 0 0 1.
Proof.
  intros Hr Hn Hrn. split; [ | reflexivity ].
  assert (E0 : col0 (block3 (define_coil_orientation loc rot n))
               = cross (normalize rot) (normalize n)) by reflexivity.
  assert (E1 : col1 (block3 (define_coil_orientation loc rot n)) = normalize rot)
    by reflexivity.
  assert (E2 : col2 (block3 (define_coil_orientation loc rot n)) = normalize n)
    by reflexivity.
  unfold orthonormal3. rewrite E0, E1, E2, !norm_unit_iff.
  pose proof (normalize_dot _ Hr) as Uy. pose proof (normalize_dot _ Hn) as Uz.
  assert (Oyz : dot (normalize rot) (normalize n) = 0).
  { rewrite normalized_dot, Hrn. unfold Rdiv. ring. }
  repeat split; try assumption.
  - rewrite lagrange, Uy, Uz, Oyz. ring.
  - apply cross_dot_l.
  - apply cross_dot_r.
Qed.

Lemma tangent_dir_nonzero (V : mat2 R) (t : R) :
  det2 V <> 0 -> dot (tangent_dir V t) (tangent_dir V t) <> 0.
Proof.
  intros Hd E. apply dot_self_zero in E. unfold tangent_dir, zero3 in E.
  injection E as E1 E2. pose proof (sin2_cos2 (sweep t 90)) as Hsc.
  unfold Rsqr in Hsc. revert E1 E2 Hsc Hd. unfold det2.
  generalize (cos (sweep t 90)) (sin (sweep t 90)). intros c s.
  destruct V as [[a b] [d e]]. cbn [v2x v2y m2r0 m2r1]. intros E1 E2 Hsc Hd.
  assert (Hc : c * (a * e - b * d) = 0).
  { replace (c * (a * e - b * d)) with (e * (a * c + b * s) - b * (d * c + e * s)) by ring.
    rewrite E1, E2. ring. }
  assert (Hs : s * (a * e - b * d) = 0).
  { replace (s * (a * e - b * d)) with (a * (d * c + e * s) - d * (a * c + b * s)) by ring.
    rewrite E1, E2. ring. }
  apply Rmult_integral in Hc. apply Rmult_integral in Hs.
  destruct Hc as [Hc|Hc]; [ | contradiction ].
  destruct Hs as [Hs|Hs]; [ | contradiction ]. subst. lra.
Qed.

Lemma surf_normal_tilted (C : vec6 R) :
  c1 C <> 0 \/ c2 C <> 0 -> tilted (surf_normal 0 0 C).
Proof.
  intros Hc. apply normalize_tilted. unfold tilted. geom.
  destruct Hc as [Hc|Hc]; [left|right]; intros E; apply Hc; lra.
Qed.

Section Pose.
Context `{LinAlg R} `{MeshLib R}.

Lemma quadratic_surf_rotation_eq (x y t : R) (C : vec6 R) w V :
  eig (second_form x y C) = Ok (w, V) ->
  quadratic_surf_rotation x y t C =
  Ok (m3v (rotate_vec2vec zaxis (surf_normal x y C)) (tangent_dir V t),
      surf_normal x y C).
Proof.
  intros E. unfold quadratic_surf_rotation.
  rewrite (compute_principal_dir_ok _ _ _ _ _ E). cbn [bind].
  unfold interpolate_angle.
  cbn [broadcast2 length Nat.eqb zip_with bind app as_vec3 vx vy].
  reflexivity.
Qed.

(** The handle direction and the normal that [place_coil] maps to global
    coordinates stay orthogonal, and neither is zero. *)
Lemma coil_axes (B : mat3 R) (C : vec6 R) (V : mat2 R) (t : R) :
  orthonormal3 B -> c1 C <> 0 \/ c2 C <> 0 -> det2 V <> 0 ->
  let nl := surf_normal 0 0 C in
  let rot := m3v B (m3v (rotate_vec2vec zaxis nl) (tangent_dir V t)) in
  let n := m3v B nl in
  dot rot rot <> 0 /\ dot n n = 1 /\ dot rot n = 0.
Proof.
  intros HB Hc Hd nl rot n.
  pose proof (surf_normal_unit 0 0 C) as Hu. apply norm_unit_iff in Hu. fold nl in Hu.
  assert (Hz : dot zaxis zaxis = 1) by (unfold zaxis; geom; ring).
  destruct (rotate_vec2vec_orthonormal _ _ Hz Hu (cross_zaxis_l _ (surf_normal_tilted C Hc)))
    as (HR & _ & Himg). fold nl in HR, Himg.
  subst rot n. split; [ | split ].
  - rewrite !orthonormal3_dot by assumption. apply tangent_dir_nonzero, Hd.
  - rewrite orthonormal3_dot by assumption. exact Hu.
  - rewrite orthonormal3_dot by assumption.
    rewrite <- Himg at 2. rewrite orthonormal3_dot by assumption.
    unfold tangent_dir, zaxis. geom. ring.
Qed.
End Pose.

Section Sampling.
Context `{LinAlg R} `{MeshLib R}.

Lemma sample_frame (self : QuadraticDomain) (mesh : Mesh R) (x y : R)
  nb nrm sample iA C n :
  patch_normals (local_span self) mesh (snapped self mesh x y) = Ok (nb, nrm) ->
  tilted nrm ->
  _get_sample self mesh x y = Ok (sample, iA, C, n) ->
  orthonormal3 (block3 iA) /\ n = surf_normal 0 0 C /\
  (exists w V, eig (second_form 0 0 C) = Ok (w, V)) /\
  sample = vadd (snapped self mesh x y)
                (vmuls (normalize (m3v (block3 iA) n)) (distance self)).
Proof.
  intros Ep Ht Es. destruct (get_sample_inv _ _ _ _ _ _ _ _ Es) as (A & w & V & Ec & Ee & En & Esample).
  destruct (construct_inv _ _ _ _ _ _ Ec) as (nb' & nrm' & Ep' & _ & EiA & _).
  rewrite Ep in Ep'. injection Ep' as <- <-.
  split; [ | split; [ exact En | split; [ exists w, V; exact Ee | exact Esample ] ] ].
  rewrite EiA. apply (frames_orthonormal _ _ Ht).
Qed.


Lemma coil_frame_eq (self : QuadraticDomain) (mesh : Mesh R) (x y theta : R)
  sample iA C n w V :
  _get_sample self mesh x y = Ok (sample, iA, C, n) ->
  eig (second_form 0 0 C) = Ok (w, V) ->
  coil_frame self mesh x y theta =
  Ok (sample,
      m3v (block3 iA) (m3v (rotate_vec2vec zaxis (surf_normal 0 0 C)) (tangent_dir V theta)),
      m3v (block3 iA) (surf_normal 0 0 C)).
Proof.
  intros Es Ee. unfold coil_frame. rewrite Es. cbn [bind].
  change (@s0 R R_scalar) with 0.
  rewrite (quadratic_surf_rotation_eq 0 0 theta C _ _ Ee). reflexivity.
Qed.


(** C10: [place_coil] called without [flip_norm] behaves as with
    [flip_norm=True]: the normal is multiplied by -1 before the orientation
    matrix is assembled, so the z axis of the pose is the negated
    (normalised) global normal, the negated normal itself when that has
    unit length; with [flip_norm=False] it is the un-negated one. *)
Theorem place_coil_flip_default (self : QuadraticDomain) (mesh : Mesh R)
  (x y theta : R) sample rot n :
  coil_frame self mesh x y theta = Ok (sample, rot, n) ->
  place_coil self mesh x y theta None = place_coil self mesh x y theta (Some true) /\
  (exists Mt, place_coil self mesh x y theta None = Ok Mt /\
     Mt = define_coil_orientation sample rot (smulv (-1) n) /\
     col2 (block3 Mt) = vopp (vdivs n (norm n)) /\
     (norm n = 1 -> col2 (block3 Mt) = vopp n)) /\
  (exists Mf, place_coil self mesh x y theta (Some false) = Ok Mf /\
     Mf = define_coil_orientation sample rot (smulv 1 n) /\
     col2 (block3 Mf) = vdivs n (norm n) /\
     (norm n = 1 -> col2 (block3 Mf) = n)).
Proof.
  intros E. unfold place_coil. rewrite E. cbn [bind].
  split; [ reflexivity | ].
  assert (Hopp : norm (smulv (-1) n) = norm n).
  { unfold norm. f_equal. destruct n. geom. ring. }
  assert (Hid : smulv 1 n = n) by (destruct n; geom; f_equal; ring).
  assert (Hone : norm n = 1 -> vdivs n (norm n) = n).
  { intros ->. destruct n. geom. f_equal; field. }
  assert (Et : col2 (block3 (define_coil_orientation sample rot (smulv (-1) n)))
               = vopp (vdivs n (norm n))).
  { transitivity (vdivs (smulv (-1) n) (norm (smulv (-1) n))); [ reflexivity | ].
    rewrite Hopp. generalize (norm n). intros k. destruct n. geom.
    unfold Rdiv. f_equal; ring. }
  assert (Ef : col2 (block3 (define_coil_orientation sample rot (smulv 1 n)))
               = vdivs n (norm n)).
  { transitivity (vdivs (smulv 1 n) (norm (smulv 1 n))); [ reflexivity | ].
    rewrite Hid. reflexivity. }
  split; eexists; (split; [ reflexivity | split; [ reflexivity | split ] ]).
  - exact Et.
  - intros Hn. etransitivity; [ exact Et | rewrite (Hone Hn); reflexivity ].
  - exact Ef.
  - intros Hn. etransitivity; [ exact Ef | exact (Hone Hn) ].
Qed.
End Sampling.

(** ** Totality *)

Section Totality.
Context `{LinAlg R} `{MeshLib R}.

Lemma construct_total (ls : R) (mesh : Mesh R) (p : vec3 R) :
  length (nodes mesh) = length (coords mesh) ->
  (forall A b, exists r, lstsq A b = Ok r) ->
  exists r, _construct_local_quadric ls mesh p = Ok r.
Proof.
  intros Hlen Hls. destruct (patch_normals_ok ls mesh p Hlen) as (nb & tags & _ & Ep).
  rewrite (construct_eq _ _ _ _ _ Ep). cbv zeta. unfold quad_fit.
  destruct (Hls (design (fit_X (fst (local_frames
              (normalize (get_normals tags (nodes mesh) (coords mesh) (trigs mesh))) p)) nb))
                (fit_b (fst (local_frames
              (normalize (get_normals tags (nodes mesh) (coords mesh) (trigs mesh))) p)) nb))
    as [[[[x res] rk] sv] ->].
  cbn [bind]. eexists. reflexivity.
Qed.

(** [_get_sample] and [place_coil] return whenever the mesh arrays have one
    length and the two solvers return. *)
Lemma get_sample_total (self : QuadraticDomain) (mesh : Mesh R) (x y : R) :
  length (nodes mesh) = length (coords mesh) ->
  (forall A b, exists r, lstsq A b = Ok r) ->
  (forall P, exists r, eig P = Ok r) ->
  exists r, _get_sample self mesh x y = Ok r.
Proof.
  intros Hlen Hls Heig. unfold _get_sample.
  destruct (construct_total (local_span self) mesh (snapped self mesh x y) Hlen Hls)
    as [[[C A] iA] ->].
  cbn [bind]. unfold compute_principal_dir.
  destruct (Heig (second_form s0 s0 C)) as [[w V] ->]. cbn [bind].
  eexists. reflexivity.
Qed.

Lemma coil_frame_total (self : QuadraticDomain) (mesh : Mesh R) (x y theta : R) :
  length (nodes mesh) = length (coords mesh) ->
  (forall A b, exists r, lstsq A b = Ok r) ->
  (forall P, exists r, eig P = Ok r) ->
  exists r, coil_frame self mesh x y theta = Ok r.
Proof.
  intros Hlen Hls Heig.
  destruct (get_sample_total self mesh x y Hlen Hls Heig) as [[[[sample iA] C] n] Es].
  destruct (Heig (second_form 0 0 C)) as [[w V] Ee].
  rewrite (coil_frame_eq _ _ _ _ theta _ _ _ _ _ _ Es Ee). eexists. reflexivity.
Qed.

End Totality.

(** ** The normal of the patch, with the collaborator of the specification *)

Lemma take_tags_patch `{MeshLib R} (ls : R) (mesh : Mesh R) (p : vec3 R) tags nb nrm :
  take (nodes mesh) (neighbours_ind (coords mesh) p ls) = Ok tags ->
  patch_normals ls mesh p = Ok (nb, nrm) ->
  nrm = get_normals tags (nodes mesh) (coords mesh) (trigs mesh).
Proof.
  intros Et. unfold patch_normals.
  destruct (take (coords mesh) _) as [nb'|e]; cbn [bind]; [ | discriminate ].
  rewrite Et. cbn [bind]. intros E. injection E as _ <-. reflexivity.
Qed.

(** With [get_normals] the average of the per-point normal estimates, the
    normal from which [_construct_local_quadric] builds the forward frame
    is that average divided by its norm; it has unit length when the
    average is not zero, and the rotation block of the forward frame takes
    it to +Z when the average is not parallel to the z axis. *)
Lemma construct_aligns_average_normal `{LinAlg R}
  (closest : vec3 R -> list (vec3 R) -> vec3 R)
  (estimate_vertex_normals :
     list nat -> list nat -> list (vec3 R) -> list (nat * nat * nat) -> list (vec3 R))
  (ls : R) (mesh : Mesh R) (p : vec3 R) tags C A iA :
  take (nodes mesh) (neighbours_ind (coords mesh) p ls) = Ok tags ->
  @_construct_local_quadric R R_scalar _ (spec_meshlib closest estimate_vertex_normals)
    ls mesh p = Ok (C, A, iA) ->
  let avg := vmean (estimate_vertex_normals tags (nodes mesh) (coords mesh) (trigs mesh)) in
  let n := vdivs avg (norm avg) in
  A = fst (local_frames n p) /\
  (avg <> zero3 -> norm n = 1) /\
  (tilted avg -> m3v (block3 A) n = V3 0 0 1).
Proof.
  intros Et Ec avg n.
  destruct (construct_inv _ _ _ _ _ _ Ec) as (nb & nrm & Ep & EA & _ & _).
  pose proof (take_tags_patch _ _ _ _ _ _ Et Ep) as En.
  change (get_normals tags (nodes mesh) (coords mesh) (trigs mesh)) with avg in En.
  subst nrm. fold n in EA. split; [ exact EA | split ].
  - intros Hz. apply normalize_unit. intros E. apply Hz, dot_self_zero, E.
  - intros Ht. rewrite EA. apply (frames_orthonormal avg p Ht).
Qed.

(** ** The planar patch in exact arithmetic *)

Lemma Rltb_true (a b : R) : a < b -> Rltb a b = true.
Proof. intros Hab. unfold Rltb. destruct (Rlt_dec a b); [ reflexivity | contradiction ]. Qed.

Lemma norm_lt (a : vec3 R) (r : R) : 0 < r -> dot a a < r * r -> norm a < r.
Proof.
  intros Hr Ha. unfold norm. cbn [ssqrt R_scalar].
  rewrite <- (sqrt_square r) by lra.
  apply sqrt_lt_1; [ apply dot_self_nonneg | nra | exact Ha ].
Qed.

Lemma normalize_x : normalize (V3 1 0 0) = V3 1 0 0.
Proof.
  unfold normalize, norm. cbn [ssqrt R_scalar].
  replace (dot (V3 1 0 0) (V3 1 0 0)) with 1 by (geom; ring).
  rewrite sqrt_1. geom. f_equal; field.
Qed.

Lemma rotate_x_to_z :
  rotate_vec2vec (V3 1 0 0) (V3 s0 s0 s1) = M3 (V3 0 0 (-1)) (V3 0 1 0) (V3 1 0 0).
Proof.
  rewrite rotate_vec2vec_rodrigues. unfold rodrigues. geom.
  f_equal; f_equal; field.
Qed.

Section PlanarPatch.
#[local] Existing Instance flat_linalg.
#[local] Existing Instance tri_meshlib.

Lemma tri_neighbours (r : R) :
  1 < r -> take (coords tri_mesh) (neighbours_ind (coords tri_mesh) origin r)
           = Ok (coords tri_mesh) /\
           take (nodes tri_mesh) (neighbours_ind (coords tri_mesh) origin r)
           = Ok (nodes tri_mesh).
Proof.
  intros Hr.
  assert (M : forall c, dot (vsub c origin) (vsub c origin) < r * r ->
                        sltb (norm (vsub c origin)) r = true).
  { intros c Hc. apply Rltb_true, norm_lt; [ lra | exact Hc ]. }
  unfold neighbours_ind. cbn [coords tri_mesh map].
  rewrite !M by (unfold origin; geom; nra).
  split; reflexivity.
Qed.

Lemma tri_patch : patch_normals 8 tri_mesh origin = Ok (coords tri_mesh, V3 1 0 0).
Proof.
  unfold patch_normals. destruct (tri_neighbours 8 ltac:(lra)) as [-> ->].
  reflexivity.
Qed.

(** The patch in the coordinates of its local frame: all heights are 0. *)
Lemma tri_local_points :
  affine (fst (local_frames (normalize (V3 1 0 0)) origin)) (coords tri_mesh)
  = [V3 0 0 0; V3 0 1 0; V3 (-1) 0 0].
Proof.
  rewrite normalize_x. unfold affine. cbn [coords tri_mesh map].
  rewrite !frames_forward_apply. unfold frame_rotation. rewrite rotate_x_to_z.
  unfold origin. geom. repeat (f_equal; try ring).
Qed.

Lemma tri_construct :
  _construct_local_quadric 8 tri_mesh origin
  = Ok (zero6, fst (local_frames (normalize (V3 1 0 0)) origin),
        snd (local_frames (normalize (V3 1 0 0)) origin)).
Proof. rewrite (construct_eq _ _ _ _ _ tri_patch). reflexivity. Qed.


Lemma tri_solution :
  min_norm_least_squares (design [(0, 0); (0, 1); (-1, 0)]) [0; 0; 0] zero6.
Proof.
  assert (Hb : Forall (fun h => h = 0) [0; 0; 0]) by (repeat constructor).
  split.
  - intros y. rewrite (rss_zero_heights _ _ Hb). apply rss_nonneg.
  - intros y _. destruct y as [a b c d e f]. unfold dot6, zero6. geom. nra.
Qed.
End PlanarPatch.

Lemma flat_lstsq_total (A : list (vec6 R)) (b : list R) :
  exists r, @lstsq R flat_linalg A b = Ok r.
Proof. eexists. reflexivity. Qed.

Lemma flat_eig_total (P : mat2 R) : exists r, @eig R flat_linalg P = Ok r.
Proof. eexists. reflexivity. Qed.

Lemma slope_lstsq_total (A : list (vec6 R)) (b : list R) :
  exists r, @lstsq R slope_linalg A b = Ok r.
Proof. eexists. reflexivity. Qed.

Lemma slope_eig_total (P : mat2 R) : exists r, @eig R slope_linalg P = Ok r.
Proof. eexists. reflexivity. Qed.

Section PlanarPatchClaims.
#[local] Existing Instance flat_linalg.
#[local] Existing Instance tri_meshlib.

Lemma tri_local_points' :
  affine tri_forward (coords tri_mesh) = [V3 0 0 0; V3 0 1 0; V3 (-1) 0 0].
Proof. exact tri_local_points. Qed.

Lemma Rltb_false (a b : R) : b <= a -> Rltb a b = false.
Proof. intros Hab. unfold Rltb. destruct (Rlt_dec a b); [ lra | reflexivity ]. Qed.

(** The constructor, run on the planar patch. *)
Lemma tri_init : QuadraticDomain_init tri_mesh origin None None None = Ok tri_domain.
Proof.
  unfold QuadraticDomain_init, _initialize_quadratic_surface.
  change (closest_point2surf origin (coords tri_mesh)) with origin.
  change (@lit R R_scalar 8) with 8. rewrite tri_construct. cbn [bind].
  change (@lit R R_scalar 35) with 35.
  destruct (tri_neighbours 35 ltac:(lra)) as [-> _]. cbn [bind].
  change (fst (local_frames (normalize (V3 1 0 0)) origin)) with tri_forward.
  rewrite tri_local_points'. unfold np_reduce_axis0, smin, smax.
  cbn [fold_left vx vy vz sltb R_scalar].
  repeat match goal with
         | |- context [Rltb ?a ?b] =>
             first [ rewrite (Rltb_true a b) by lra | rewrite (Rltb_false a b) by lra ]
         end.
  reflexivity.
Qed.




Lemma tilted_x : tilted (V3 1 0 0).
Proof. left. cbn [vx]. lra. Qed.

Lemma local_frames_round_trip_witness :
  block3 tri_inverse = transpose3 (block3 tri_forward) /\
  affine tri_inverse (affine tri_forward (coords tri_mesh)) = coords tri_mesh.
Proof.
  destruct (local_frames_round_trip 8 tri_mesh origin zero6 tri_forward tri_inverse tri_construct
              (proj1 (frames_orthonormal (V3 1 0 0) origin tilted_x)))
    as (Hb & _ & _ & Hr).
  split; [ exact Hb | exact (Hr (coords tri_mesh)) ].
Defined.



Lemma place_coil_flip_default_witness :
  exists Mt Mf,
    place_coil tri_domain tri_mesh 0 0 0 None = Ok Mt /\
    place_coil tri_domain tri_mesh 0 0 0 (Some false) = Ok Mf /\
    col2 (block3 Mt) = vopp (col2 (block3 Mf)).
Proof.
  destruct (coil_frame_total tri_domain tri_mesh 0 0 0 eq_refl
              flat_lstsq_total flat_eig_total)
    as [[[sample rot] n] Ec].
  destruct (place_coil_flip_default tri_domain tri_mesh 0 0 0 sample rot n Ec)
    as (_ & (Mt & Et & _ & Ezt & _) & (Mf & Ef & _ & Ezf & _)).
  exists Mt, Mf. split; [ exact Et | split; [ exact Ef | ] ].
  rewrite Ezt, Ezf. reflexivity.
Defined.

Lemma quad_fit_planar_witness :
  c1 zero6 = 0 /\ c2 zero6 = 0 /\ c3 zero6 = 0 /\ c4 zero6 = 0 /\ c5 zero6 = 0.
Proof.
  assert (Hb : Forall (fun h => h = 0) [0; 0; 0]) by (repeat constructor).
  assert (Hs : forall x res rk sv,
             lstsq (design [(0, 0); (0, 1); (-1, 0)]) [0; 0; 0] = Ok (x, res, rk, sv) ->
             min_norm_least_squares (design [(0, 0); (0, 1); (-1, 0)]) [0; 0; 0] x).
  { intros x res rk sv E. injection E as <- _ _ _. exact tri_solution. }
  exact (proj1 (quad_fit_planar [(0, 0); (0, 1); (-1, 0)] [0; 0; 0] zero6 Hb Hs eq_refl)).
Defined.
End PlanarPatchClaims.

Example construct_aligns_average_normal_tri :
  let n := vdivs (vmean [V3 1 0 0; V3 1 0 0; V3 1 0 0])
                 (norm (vmean [V3 1 0 0; V3 1 0 0; V3 1 0 0])) in
  norm n = 1 /\
  m3v (block3 (fst (local_frames n origin))) n = V3 0 0 1.
Proof.
  assert (Ha : vmean [V3 1 0 0; V3 1 0 0; V3 1 0 0] = V3 1 0 0).
  { unfold vmean. cbn [fold_left length Z.of_nat Pos.of_succ_nat Pos.succ].
    geom. f_equal; field. }
  assert (Et : take (nodes tri_mesh) (neighbours_ind (coords tri_mesh) origin 8)
               = Ok (nodes tri_mesh)) by exact (proj2 (tri_neighbours 8 ltac:(lra))).
  destruct (@construct_total flat_linalg
              (spec_meshlib (fun _ _ => origin) tri_vertex_normals)
              8 tri_mesh origin eq_refl flat_lstsq_total)
    as [[[C A] iA] Ec].
  destruct (@construct_aligns_average_normal flat_linalg (fun _ _ => origin)
              tri_vertex_normals 8 tri_mesh origin _ C A iA Et Ec) as (EA & Hu & Hz).
  cbv zeta in EA, Hu, Hz. unfold tri_vertex_normals in EA, Hu, Hz.
  assert (Hne : vmean [V3 1 0 0; V3 1 0 0; V3 1 0 0] <> zero3).
  { rewrite Ha. intros E. injection E as E. lra. }
  assert (Ht : tilted (vmean [V3 1 0 0; V3 1 0 0; V3 1 0 0])).
  { rewrite Ha. exact tilted_x. }
  split; [ exact (Hu Hne) | ]. rewrite <- EA. exact (Hz Ht).
Qed.


(** * Further laws of geometry.py *)

(** ** Matrices and rotations *)

(** X1: the law that the docstring of [skew] states, np.cross(a, b) =
    np.dot(skew(a), b); the matrix is antisymmetric and sends its own vector
    to zero. *)
Theorem skew_is_cross_product (a b : vec3 R) :
  m3v (skew a) b = cross a b /\
  transpose3 (skew a) = skew (vopp a) /\
  m3v (skew a) a = zero3.
Proof.
  destruct a as [a1 a2 a3], b as [b1 b2 b3]. unfold zero3. geom.
  split; [ f_equal; ring | split; [ f_equal; f_equal; ring | f_equal; ring ] ].
Qed.

(** X2: [affine] composes like the matrices: for a matrix [B] whose last
    row is (0,0,0,1), applying [A @ B] is applying [B] and then [A]; the
    identity matrix leaves every point where it is, and the number of points
    is kept. *)
Theorem affine_composes (A B : mat4 R) (pts : list (vec3 R)) :
  m4r3 B = V4 0 0 0 1 ->
  affine (matmul4 A B) pts = affine A (affine B pts) /\
  affine eye4 pts = pts /\
  length (affine A pts) = length pts.
Proof.
  intros HB. unfold affine. split; [ | split ].
  - rewrite map_map. apply map_ext. intros [x y z].
    destruct A as [[a00 a01 a02 a03] [a10 a11 a12 a13] [a20 a21 a22 a23] [a30 a31 a32 a33]].
    destruct B as [[b00 b01 b02 b03] [b10 b11 b12 b13] [b20 b21 b22 b23] [b30 b31 b32 b33]].
    cbn [m4r3] in HB. injection HB as -> -> -> ->.
    geom. f_equal; ring.
  - rewrite <- (map_id pts) at 2. apply map_ext. intros [x y z]. geom. f_equal; ring.
  - apply length_map.
Qed.

Lemma tri_forward_last_row : m4r3 tri_forward = V4 0 0 0 1.
Proof. unfold tri_forward, local_frames, store. geom. f_equal; ring. Qed.

Lemma affine_composes_witness :
  affine (matmul4 tri_inverse tri_forward) [V3 1 2 3]
  = affine tri_inverse (affine tri_forward [V3 1 2 3]).
Proof.
  exact (proj1 (affine_composes tri_inverse tri_forward [V3 1 2 3] tri_forward_last_row)).
Defined.

Lemma rodrigues_det (n : vec3 R) (k : R) :
  det3 (rodrigues n k) = 1 - dot n n * (2 * k - 1 - k * k * dot n n).
Proof. destruct n as [a b c]. unfold det3, rodrigues. geom. ring. Qed.

Lemma rodrigues_axis (n : vec3 R) (k : R) : m3v (rodrigues n k) n = n.
Proof. destruct n as [a b c]. unfold rodrigues. geom. f_equal; ring. Qed.

Lemma rodrigues_swap (n : vec3 R) (k : R) :
  rodrigues (vopp n) k = transpose3 (rodrigues n k).
Proof. destruct n as [a b c]. unfold rodrigues. geom. f_equal; f_equal; ring. Qed.

Lemma cross_anti (a b : vec3 R) : cross b a = vopp (cross a b).
Proof. destruct a, b. geom. f_equal; ring. Qed.

Lemma dot_vopp (a : vec3 R) : dot (vopp a) (vopp a) = dot a a.
Proof. destruct a. geom. ring. Qed.

(** X3: for vectors that are not parallel, swapping the two arguments of
    [rotate_vec2vec] transposes the matrix: the rotation taking [b] to [a]
    is the transpose of the one taking [a] to [b]. *)
Theorem rotate_vec2vec_swap (a b : vec3 R) :
  cross a b <> zero3 ->
  rotate_vec2vec b a = transpose3 (rotate_vec2vec a b).
Proof.
  intros _.
  rewrite !rotate_vec2vec_rodrigues. rewrite (cross_anti a b), dot_vopp, (dot_comm b a).
  apply rodrigues_swap.
Qed.

Lemma cross_x_z : cross (V3 1 0 0) (V3 0 0 1) <> zero3.
Proof. unfold zero3. geom. intros E. injection E as _ E _. lra. Qed.

Lemma rotate_vec2vec_swap_witness :
  rotate_vec2vec (V3 0 0 1) (V3 1 0 0) = transpose3 (rotate_vec2vec (V3 1 0 0) (V3 0 0 1)).
Proof. exact (rotate_vec2vec_swap (V3 1 0 0) (V3 0 0 1) cross_x_z). Defined.

(** X4: for unit vectors [a] and [b] that are not parallel,
    [rotate_vec2vec(a, b)] is a proper rotation: it takes [a] to [b], its
    columns are orthonormal, its product with its transpose is the identity,
    its determinant is 1 and it fixes the axis [a x b]. *)
Theorem rotate_vec2vec_proper_rotation (a b : vec3 R) :
  norm a = 1 -> norm b = 1 -> cross a b <> zero3 ->
  m3v (rotate_vec2vec a b) a = b /\
  orthonormal3 (rotate_vec2vec a b) /\
  matmul3 (rotate_vec2vec a b) (transpose3 (rotate_vec2vec a b)) = eye3 /\
  det3 (rotate_vec2vec a b) = 1 /\
  m3v (rotate_vec2vec a b) (cross a b) = cross a b.
Proof.
  intros Ha Hb Hn. apply norm_unit_iff in Ha. apply norm_unit_iff in Hb.
  assert (Hd : dot (cross a b) (cross a b) <> 0).
  { intros E. apply Hn, dot_self_zero, E. }
  destruct (rotate_vec2vec_orthonormal a b Ha Hb Hd) as (Ho & _ & Hi).
  pose proof (rodrigues_coeff a b Ha Hb Hd) as Hk. cbv zeta in Hk.
  split; [ exact Hi | split; [ exact Ho | ] ].
  rewrite rotate_vec2vec_rodrigues.
  split; [ apply rodrigues_orth_r, Hk | ].
  split; [ rewrite rodrigues_det, Hk; ring | apply rodrigues_axis ].
Qed.

Lemma rotate_vec2vec_proper_rotation_witness :
  m3v (rotate_vec2vec (V3 1 0 0) (V3 0 0 1)) (V3 1 0 0) = V3 0 0 1 /\
  det3 (rotate_vec2vec (V3 1 0 0) (V3 0 0 1)) = 1.
Proof.
  assert (H1 : norm (V3 1 0 0) = 1) by (apply norm_unit_iff; geom; ring).
  assert (H2 : norm (V3 0 0 1) = 1) by (apply norm_unit_iff; geom; ring).
  destruct (rotate_vec2vec_proper_rotation (V3 1 0 0) (V3 0 0 1) H1 H2 cross_x_z)
    as (Hi & _ & _ & Hd & _).
  split; [ exact Hi | exact Hd ].
Defined.

(** ** The fitted surface *)

Lemma design_row_surface (x y : R) (C : vec6 R) :
  dot6 (design_row (x, y)) C = quadratic_surf x y C.
Proof. destruct C. unfold dot6, design_row, quadratic_surf. geom. ring. Qed.

Lemma rss_exact (X : list (R * R)) (b : list R) (C : vec6 R) :
  Forall2 (fun xy h => h = quadratic_surf (fst xy) (snd xy) C) X b ->
  rss (design X) b C = 0.
Proof.
  induction 1 as [ | [x y] h X b E _ IH ]; [ reflexivity | ].
  unfold design. cbn [map rss]. fold (design X). rewrite IH, design_row_surface.
  cbn [fst snd] in E. rewrite E. ring.
Qed.

Lemma rss_zero_exact (X : list (R * R)) (C : vec6 R) :
  forall b, length X = length b -> rss (design X) b C <= 0 ->
  Forall2 (fun xy h => quadratic_surf (fst xy) (snd xy) C = h) X b.
Proof.
  induction X as [ | [x y] X IH ]; intros [ | h b ] Hl Hr; try discriminate Hl.
  - constructor.
  - unfold design in Hr. cbn [map rss] in Hr. fold (design X) in Hr.
    rewrite design_row_surface in Hr.
    pose proof (rss_nonneg (design X) b C) as Hn.
    pose proof (Rle_0_sqr (quadratic_surf x y C - h)) as Hs. unfold Rsqr in Hs.
    constructor.
    + cbn [fst snd]. nra.
    + apply IH; [ injection Hl as Hl; exact Hl | lra ].
Qed.

(** X5: [quad_fit] is exact on data that lie on a quadric: when the heights
    are the values of some quadratic surface at the fitted points and
    [lstsq] returns a least-squares solution, the coefficients returned
    reproduce every height through [quadratic_surf] (the design matrix and
    [quadratic_surf] order the six coefficients alike). *)
Theorem quad_fit_exact_on_quadric `{LinAlg R} (X : list (R * R)) (b : list R)
  (C0 C : vec6 R) :
  Forall2 (fun xy h => h = quadratic_surf (fst xy) (snd xy) C0) X b ->
  (forall x res rk sv, lstsq (design X) b = Ok (x, res, rk, sv) ->
     least_squares (design X) b x) ->
  quad_fit X b = Ok C ->
  rss (design X) b C = 0 /\
  Forall2 (fun xy h => quadratic_surf (fst xy) (snd xy) C = h) X b.
Proof.
  intros Hq Hs Ef. destruct (quad_fit_inv _ _ _ Ef) as (res & rk & sv & El).
  pose proof (Hs _ _ _ _ El C0) as Hle. rewrite (rss_exact _ _ _ Hq) in Hle.
  pose proof (rss_nonneg (design X) b C) as Hn.
  split; [ lra | ].
  apply rss_zero_exact; [ | exact Hle ].
  clear -Hq. induction Hq; cbn [length]; congruence.
Qed.

(** The derivative of a polynomial of degree two. *)
Lemma quadratic_derivative (f : R -> R) (a b c x : R) :
  (forall u, f u = a + b * u + c * u * u) ->
  derivable_pt_lim f x (b + 2 * c * x).
Proof.
  intros Ef eps Heps.
  assert (Hc : 0 < Rabs c + 1) by (pose proof (Rabs_pos c); lra).
  assert (Hd : 0 < eps / (Rabs c + 1)) by (apply Rdiv_lt_0_compat; assumption).
  exists (mkposreal _ Hd). intros h Hh Hlt. cbn [pos] in Hlt.
  rewrite !Ef.
  replace ((a + b * (x + h) + c * (x + h) * (x + h) - (a + b * x + c * x * x)) / h
           - (b + 2 * c * x)) with (c * h) by (field; exact Hh).
  rewrite Rabs_mult.
  apply Rle_lt_trans with ((Rabs c + 1) * Rabs h).
  - apply Rmult_le_compat_r; [ apply Rabs_pos | lra ].
  - apply Rlt_le_trans with ((Rabs c + 1) * (eps / (Rabs c + 1))).
    + apply Rmult_lt_compat_l; assumption.
    + right. field. lra.
Qed.

Lemma linear_derivative (f : R -> R) (a b x : R) :
  (forall u, f u = a + b * u) -> derivable_pt_lim f x b.
Proof.
  intros Ef. replace b with (b + 2 * 0 * x) by ring.
  apply (quadratic_derivative f a b 0). intros u. rewrite Ef. ring.
Qed.

(** X6: the vectors r_x and r_y that [compute_principal_dir] forms are the
    partial derivatives of [quadratic_surf_position], the entries 2 C[4],
    C[3], 2 C[5] of its second derivatives are the derivatives of those,
    and the normal it returns is orthogonal to both tangents. *)
Theorem tangents_are_partial_derivatives (x y : R) (C : vec6 R) :
  vderiv (fun u => quadratic_surf_position u y C) x (r_x x y C) /\
  vderiv (fun u => quadratic_surf_position x u C) y (r_y x y C) /\
  derivable_pt_lim (fun u => vz (r_x u y C)) x (2 * c4 C) /\
  derivable_pt_lim (fun u => vz (r_x x u C)) y (c3 C) /\
  derivable_pt_lim (fun u => vz (r_y u y C)) x (c3 C) /\
  derivable_pt_lim (fun u => vz (r_y x u C)) y (2 * c5 C) /\
  dot (surf_normal x y C) (r_x x y C) = 0 /\
  dot (surf_normal x y C) (r_y x y C) = 0.
Proof.
  destruct C as [a b c d e f].
  unfold vderiv, quadratic_surf_position, quadratic_surf.
  cbn [vx vy vz c0 c1 c2 c3 c4 c5 r_x r_y lit R_scalar sadd smul s0 s1].
  repeat split.
  - apply (linear_derivative _ 0 1). intros u. ring.
  - apply (linear_derivative _ y 0). intros u. ring.
  - replace (2 * e * x + b + d * y) with ((b + d * y) + 2 * e * x) by ring.
    apply (quadratic_derivative _ (a + c * y + f * y * y)). intros u. ring.
  - apply (linear_derivative _ x 0). intros u. ring.
  - apply (linear_derivative _ 0 1). intros u. ring.
  - replace (2 * f * y + c + d * x) with ((c + d * x) + 2 * f * y) by ring.
    apply (quadratic_derivative _ (a + b * x + e * x * x)). intros u. ring.
  - apply (linear_derivative _ (b + d * y)). intros u. ring.
  - apply (linear_derivative _ (2 * e * x + b)). intros u. ring.
  - apply (linear_derivative _ (2 * f * y + c)). intros u. ring.
  - apply (linear_derivative _ (c + d * x)). intros u. ring.
  - unfold surf_normal. generalize (norm (r_x_cross_y x y (V6 a b c d e f))). intros k.
    geom. unfold Rdiv. ring.
  - unfold surf_normal. generalize (norm (r_x_cross_y x y (V6 a b c d e f))). intros k.
    geom. unfold Rdiv. ring.
Qed.

Lemma r_x_cross_y_eq (x y : R) (C : vec6 R) :
  r_x_cross_y x y C = V3 (- vz (r_x x y C)) (- vz (r_y x y C)) 1.
Proof. destruct C. geom. f_equal; ring. Qed.

Lemma norm_ge_1 (x y : R) (C : vec6 R) : 1 <= norm (r_x_cross_y x y C).
Proof.
  pose proof (r_x_cross_y_nonzero x y C) as H1.
  pose proof (norm_sq (r_x_cross_y x y C)) as H2.
  pose proof (norm_nonneg (r_x_cross_y x y C)) as H3. nra.
Qed.

Lemma surf_normal_eq (x y : R) (C : vec6 R) :
  surf_normal x y C =
  V3 (- vz (r_x x y C) / norm (r_x_cross_y x y C))
     (- vz (r_y x y C) / norm (r_x_cross_y x y C))
     (1 / norm (r_x_cross_y x y C)).
Proof.
  unfold surf_normal. rewrite (r_x_cross_y_eq x y C) at 1. reflexivity.
Qed.

Lemma surf_normal_tilted_at (x y : R) (C : vec6 R) :
  vz (r_x x y C) <> 0 \/ vz (r_y x y C) <> 0 -> tilted (surf_normal x y C).
Proof.
  intros Hg. pose proof (norm_ge_1 x y C) as Hn.
  rewrite surf_normal_eq. unfold tilted. cbn [vx vy].
  destruct Hg as [Hg|Hg]; [ left | right ]; intros E;
    apply div_zero_inv in E; lra.
Qed.

(** X7: the divisor sinv**2 of the rotation that [quadratic_surf_rotation]
    builds from the z axis to the fitted normal is zero exactly at the
    critical points of the fitted surface (both slopes zero); there, and
    only there, the normal is (0,0,1), and the basis matrix of the second
    fundamental form is the Hessian [[2 C[4], C[3]], [C[3], 2 C[5]]]. *)
Theorem surf_normal_vertical_iff (x y : R) (C : vec6 R) :
  (norm (cross zaxis (surf_normal x y C)) * norm (cross zaxis (surf_normal x y C)) = 0
   <-> vz (r_x x y C) = 0 /\ vz (r_y x y C) = 0) /\
  (surf_normal x y C = zaxis <-> vz (r_x x y C) = 0 /\ vz (r_y x y C) = 0) /\
  (vz (r_x x y C) = 0 /\ vz (r_y x y C) = 0 ->
   second_form x y C = M2 (V2 (2 * c4 C) (c3 C)) (V2 (c3 C) (2 * c5 C))).
Proof.
  pose proof (norm_ge_1 x y C) as Hn.
  assert (Hz : vz (r_x x y C) = 0 /\ vz (r_y x y C) = 0 -> surf_normal x y C = zaxis).
  { intros [E1 E2]. unfold surf_normal. rewrite r_x_cross_y_eq, E1, E2.
    replace (- 0) with 0 by ring.
    replace (norm (V3 0 0 1)) with 1
      by (symmetry; apply norm_unit_iff; geom; ring).
    unfold zaxis. geom. f_equal; field. }
  split; [ | split ].
  - rewrite norm_sq. split.
    + intros E. rewrite surf_normal_eq in E. unfold zaxis in E.
      assert (Hp : - vz (r_x x y C) / norm (r_x_cross_y x y C) = 0 /\
                   - vz (r_y x y C) / norm (r_x_cross_y x y C) = 0).
      { revert E. generalize (- vz (r_x x y C) / norm (r_x_cross_y x y C))
                             (- vz (r_y x y C) / norm (r_x_cross_y x y C))
                             (1 / norm (r_x_cross_y x y C)).
        intros p q r. geom. intros E. split; nra. }
      destruct Hp as [Hp Hq].
      assert (Hk : norm (r_x_cross_y x y C) <> 0) by lra.
      pose proof (div_zero_inv _ _ Hk Hp). pose proof (div_zero_inv _ _ Hk Hq).
      split; lra.
    + intros Hg. rewrite (Hz Hg). unfold zaxis. geom. ring.
  - split; [ | exact Hz ].
    intros E. rewrite surf_normal_eq in E. unfold zaxis in E. injection E as Ex Ey _.
    assert (Hk : norm (r_x_cross_y x y C) <> 0) by lra.
    pose proof (div_zero_inv _ _ Hk Ex). pose proof (div_zero_inv _ _ Hk Ey).
    geom. split; lra.
  - intros Hg. unfold second_form. rewrite (Hz Hg). unfold zaxis. geom.
    f_equal; f_equal; ring.
Qed.

Section Tangent.
Context `{LinAlg R}.

Lemma quadratic_surf_rotation_inv (x y t : R) (C : vec6 R) pp n :
  quadratic_surf_rotation x y t C = Ok (pp, n) ->
  exists w V, eig (second_form x y C) = Ok (w, V) /\
    pp = m3v (rotate_vec2vec zaxis (surf_normal x y C)) (tangent_dir V t) /\
    n = surf_normal x y C.
Proof.
  intros E. destruct (eig (second_form x y C)) as [[w V]|e] eqn:Ee.
  - rewrite (quadratic_surf_rotation_eq x y t C w V Ee) in E. injection E as <- <-.
    exists w, V. repeat split.
  - unfold quadratic_surf_rotation, compute_principal_dir in E. rewrite Ee in E.
    discriminate E.
Qed.

(** X8: where the fitted surface is not level, the direction that
    [quadratic_surf_rotation] returns is tangent to the surface: it is
    orthogonal to the unit normal returned with it, it is the interpolated
    direction rotated by the rotation that takes the z axis to the normal,
    and it has the length of the interpolated direction. *)
Theorem quadratic_surf_rotation_tangent (x y t : R) (C : vec6 R) pp n :
  quadratic_surf_rotation x y t C = Ok (pp, n) ->
  vz (r_x x y C) <> 0 \/ vz (r_y x y C) <> 0 ->
  n = surf_normal x y C /\ norm n = 1 /\ dot pp n = 0 /\
  exists w V, eig (second_form x y C) = Ok (w, V) /\
    pp = m3v (rotate_vec2vec (V3 0 0 1) n) (tangent_dir V t) /\
    m3v (rotate_vec2vec (V3 0 0 1) n) (V3 0 0 1) = n /\
    dot pp pp = dot (tangent_dir V t) (tangent_dir V t).
Proof.
  intros E Hg. destruct (quadratic_surf_rotation_inv _ _ _ _ _ _ E) as (w & V & Ee & Ep & En).
  pose proof (surf_normal_unit x y C) as Hu. rewrite <- En in Hu.
  assert (Ht : tilted n) by (rewrite En; apply surf_normal_tilted_at, Hg).
  assert (Hz : dot zaxis zaxis = 1) by (unfold zaxis; geom; ring).
  destruct (rotate_vec2vec_orthonormal zaxis n Hz (proj1 (norm_unit_iff n) Hu)
              (cross_zaxis_l n Ht)) as (Ho & _ & Hi).
  rewrite <- En in Ep. fold zaxis.
  split; [ exact En | split; [ exact Hu | split ] ].
  - rewrite Ep. rewrite <- Hi at 2. rewrite orthonormal3_dot by exact Ho.
    unfold tangent_dir, zaxis. geom. ring.
  - exists w, V. split; [ exact Ee | split; [ exact Ep | split; [ exact Hi | ] ] ].
    rewrite Ep. apply orthonormal3_dot, Ho.
Qed.
End Tangent.

Lemma quadratic_surf_rotation_tangent_witness :
  exists pp n,
    @quadratic_surf_rotation R R_scalar R_trig flat_linalg 0 0 30 (V6 0 1 0 0 0 0)
    = Ok (pp, n) /\ norm n = 1 /\ dot pp n = 0.
Proof.
  eexists. eexists. split; [ reflexivity | ].
  assert (Hg : vz (r_x 0 0 (V6 0 1 0 0 0 0)) <> 0 \/ vz (r_y 0 0 (V6 0 1 0 0 0 0)) <> 0).
  { left. geom. lra. }
  destruct (@quadratic_surf_rotation_tangent flat_linalg 0 0 30 (V6 0 1 0 0 0 0) _ _
              eq_refl Hg) as (_ & Hu & Ho & _).
  split; [ exact Hu | exact Ho ].
Defined.

Lemma quad_fit_exact_on_quadric_witness :
  Forall2 (fun xy h => quadratic_surf (fst xy) (snd xy) (V6 0 1 0 0 0 0) = h)
          [(0, 0); (1, 0)] [0; 1].
Proof.
  assert (Hq : Forall2 (fun xy h => h = quadratic_surf (fst xy) (snd xy) (V6 0 1 0 0 0 0))
                 [(0, 0); (1, 0)] [0; 1]).
  { repeat constructor; unfold quadratic_surf; geom; ring. }
  assert (Hs : forall x res rk sv,
             @lstsq R slope_linalg (design [(0, 0); (1, 0)]) [0; 1] = Ok (x, res, rk, sv) ->
             least_squares (design [(0, 0); (1, 0)]) [0; 1] x).
  { intros x res rk sv E. injection E as <- _ _ _. intros z.
    rewrite (rss_exact _ _ _ Hq). apply rss_nonneg. }
  exact (proj2 (@quad_fit_exact_on_quadric slope_linalg _ _ _ _ Hq Hs eq_refl)).
Defined.

(** ** Directions, poses and arrays of vectors *)

Lemma sweep_half_turn (t P : R) : P <> 0 -> sweep (t + 2 * P) P = sweep t P + PI.
Proof. intros HP. unfold sweep. field. exact HP. Qed.

Lemma zip_with_neg (c s : R) (u v : list R) :
  zip_with (fun a b => a * - c + b * - s) u v
  = map Ropp (zip_with (fun a b => a * c + b * s) u v).
Proof.
  revert v. induction u as [ | a u IH ]; intros [ | b v ]; cbn [zip_with map]; try reflexivity.
  rewrite IH. f_equal. ring.
Qed.

Lemma zip_with_length (f : R -> R -> R) (u v : list R) :
  length u = length v -> length (zip_with f u v) = length u.
Proof.
  revert v. induction u as [ | a u IH ]; intros [ | b v ] Hl; try discriminate Hl;
    cbn [zip_with length]; [ reflexivity | ].
  f_equal. apply IH. injection Hl as Hl. exact Hl.
Qed.

(** X9: for arrays of one length and a period [l] that is not zero,
    advancing [t] by two periods negates the direction that
    [interpolate_angle] returns (the appended zero apart), and advancing it
    by four periods returns the same direction. *)
Theorem interpolate_angle_half_turn (u v : list R) (t P : R) :
  length u = length v -> P <> 0 ->
  exists d,
    length d = length u /\
    interpolate_angle u v t (Some P) = Ok (d ++ [0]) /\
    interpolate_angle u v (t + 2 * P) (Some P) = Ok (map Ropp d ++ [0]) /\
    interpolate_angle u v (t + 4 * P) (Some P) = Ok (d ++ [0]).
Proof.
  intros Hl HP.
  exists (zip_with (fun a b => a * cos (sweep t P) + b * sin (sweep t P)) u v).
  split; [ apply zip_with_length, Hl | ].
  split; [ apply interpolate_angle_eq, Hl | ].
  rewrite !interpolate_angle_eq by exact Hl. split.
  - rewrite sweep_half_turn by exact HP. rewrite neg_cos, neg_sin.
    rewrite zip_with_neg. reflexivity.
  - replace (t + 4 * P) with ((t + 2 * P) + 2 * P) by ring.
    rewrite !sweep_half_turn by exact HP.
    rewrite !neg_cos, !neg_sin, !Ropp_involutive. reflexivity.
Qed.

Lemma interpolate_angle_half_turn_witness :
  exists d,
    interpolate_angle [1; 0] [0; 1] 30 (Some 90) = Ok (d ++ [0]) /\
    interpolate_angle [1; 0] [0; 1] (30 + 2 * 90) (Some 90) = Ok (map Ropp d ++ [0]).
Proof.
  destruct (interpolate_angle_half_turn [1; 0] [0; 1] 30 90 eq_refl ltac:(lra))
    as (d & _ & E1 & E2 & _).
  exists d. split; [ exact E1 | exact E2 ].
Defined.

Lemma sweep_quarter_turn (t P : R) : P <> 0 -> sweep (t + P) P = sweep t P + PI / 2.
Proof. intros HP. unfold sweep. field. exact HP. Qed.

(** X10: for two orthonormal vectors of the plane, as its caller passes
    them, and a period that is not zero, [interpolate_angle] returns a
    vector of unit length at every [t], orthogonal to the vector it returns
    one period later. *)
Theorem interpolate_angle_unit (a b c d t P : R) :
  a * a + b * b = 1 -> c * c + d * d = 1 -> a * c + b * d = 0 -> P <> 0 ->
  exists p q p' q',
    interpolate_angle [a; b] [c; d] t (Some P) = Ok [p; q; 0] /\
    interpolate_angle [a; b] [c; d] (t + P) (Some P) = Ok [p'; q'; 0] /\
    p * p + q * q + 0 * 0 = 1 /\
    p * p' + q * q' + 0 * 0 = 0.
Proof.
  intros Hu Hv Huv HP.
  exists (a * cos (sweep t P) + c * sin (sweep t P)),
         (b * cos (sweep t P) + d * sin (sweep t P)),
         (a * cos (sweep t P + PI / 2) + c * sin (sweep t P + PI / 2)),
         (b * cos (sweep t P + PI / 2) + d * sin (sweep t P + PI / 2)).
  split; [ rewrite interpolate_angle_eq by reflexivity; reflexivity | ].
  split; [ rewrite interpolate_angle_eq by reflexivity;
           rewrite sweep_quarter_turn by exact HP; reflexivity | ].
  rewrite cos_plus, sin_plus, cos_PI2, sin_PI2.
  pose proof (sin2_cos2 (sweep t P)) as Hsc. unfold Rsqr in Hsc.
  revert Hsc. generalize (cos (sweep t P)) (sin (sweep t P)). intros co si Hsc.
  split.
  - replace ((a * co + c * si) * (a * co + c * si) + (b * co + d * si) * (b * co + d * si)
             + 0 * 0)
      with ((a * a + b * b) * (co * co) + (c * c + d * d) * (si * si)
            + 2 * (a * c + b * d) * (co * si)) by ring.
    rewrite Hu, Hv, Huv. lra.
  - replace ((a * co + c * si) * (a * (co * 0 - si * 1) + c * (si * 0 + co * 1))
             + (b * co + d * si) * (b * (co * 0 - si * 1) + d * (si * 0 + co * 1)) + 0 * 0)
      with ((a * c + b * d) * (co * co - si * si)
            + ((c * c + d * d) - (a * a + b * b)) * (co * si)) by ring.
    rewrite Hu, Hv, Huv. ring.
Qed.

Lemma interpolate_angle_unit_witness :
  exists p q,
    interpolate_angle [1; 0] [0; 1] 30 (Some 90) = Ok [p; q; 0] /\
    p * p + q * q + 0 * 0 = 1.
Proof.
  destruct (interpolate_angle_unit 1 0 0 1 30 90 ltac:(lra) ltac:(lra) ltac:(lra) ltac:(lra))
    as (p & q & p' & q' & E & _ & Hn & _).
  exists p, q. split; [ exact E | exact Hn ].
Defined.


Lemma normalize_scale (k : R) (v : vec3 R) :
  0 < k -> normalize (smulv k v) = normalize v.
Proof.
  intros Hk. unfold normalize.
  assert (En : norm (smulv k v) = k * norm v).
  { unfold norm. cbn [ssqrt R_scalar].
    replace (dot (smulv k v) (smulv k v)) with (k * k * dot v v)
      by (destruct v; geom; ring).
    rewrite sqrt_mult; [ | nra | apply dot_self_nonneg ].
    rewrite sqrt_square by lra. reflexivity. }
  rewrite En. destruct (Req_dec (norm v) 0) as [E0|E0].
  - apply norm_zero_iff, dot_self_zero in E0. subst v. unfold zero3. geom.
    unfold Rdiv. f_equal; ring.
  - revert E0. generalize (norm v). intros m Hm. destruct v. geom.
    f_equal; field; split; lra.
Qed.

Lemma nonzero_dot (v : vec3 R) : v <> zero3 -> dot v v <> 0.
Proof. intros Hv E. apply Hv, dot_self_zero, E. Qed.

Lemma nonzero_norm (v : vec3 R) : v <> zero3 -> norm v <> 0.
Proof. intros Hv E. apply (nonzero_dot v Hv). apply norm_zero_iff, E. Qed.

(** X12: for non-zero [rot] and [n], [define_coil_orientation] puts [loc]
    in the last column (the matrix takes the origin to [loc]), has the last
    row (0,0,0,1), unit y and z columns, and an x column that is their cross
    product, orthogonal to both; the rotation block is orthonormal exactly
    when [rot] is orthogonal to [n]; and only the directions of [rot] and
    [n] matter, not their lengths. *)
Theorem define_coil_orientation_frame (loc rot n : vec3 R) :
  rot <> zero3 -> n <> zero3 ->
  trans3 (define_coil_orientation loc rot n) = loc /\
  affine1 (define_coil_orientation loc rot n) zero3 = loc /\
  m4r3 (define_coil_orientation loc rot n) = V4 0 0 0 1 /\
  col1 (block3 (define_coil_orientation loc rot n)) = vdivs rot (norm rot) /\
  col2 (block3 (define_coil_orientation loc rot n)) = vdivs n (norm n) /\
  norm (col1 (block3 (define_coil_orientation loc rot n))) = 1 /\
  norm (col2 (block3 (define_coil_orientation loc rot n))) = 1 /\
  col0 (block3 (define_coil_orientation loc rot n))
  = cross (col1 (block3 (define_coil_orientation loc rot n)))
          (col2 (block3 (define_coil_orientation loc rot n))) /\
  dot (col0 (block3 (define_coil_orientation loc rot n)))
      (col1 (block3 (define_coil_orientation loc rot n))) = 0 /\
  dot (col0 (block3 (define_coil_orientation loc rot n)))
      (col2 (block3 (define_coil_orientation loc rot n))) = 0 /\
  (orthonormal3 (block3 (define_coil_orientation loc rot n)) <-> dot rot n = 0) /\
  (forall k m, 0 < k -> 0 < m ->
     define_coil_orientation loc (smulv k rot) (smulv m n)
     = define_coil_orientation loc rot n).
Proof.
  intros Hr Hn.
  pose proof (nonzero_dot _ Hr) as Hrd. pose proof (nonzero_dot _ Hn) as Hnd.
  assert (E1 : col1 (block3 (define_coil_orientation loc rot n)) = normalize rot)
    by reflexivity.
  assert (E2 : col2 (block3 (define_coil_orientation loc rot n)) = normalize n)
    by reflexivity.
  assert (E0 : col0 (block3 (define_coil_orientation loc rot n))
               = cross (normalize rot) (normalize n)) by reflexivity.
  rewrite E0, E1, E2.
  split; [ destruct loc; reflexivity | ].
  split; [ destruct loc as [l1 l2 l3]; unfold zero3, define_coil_orientation; geom;
           f_equal; ring | ].
  split; [ reflexivity | ].
  split; [ reflexivity | split; [ reflexivity | ] ].
  split; [ apply normalize_unit, Hrd | ].
  split; [ apply normalize_unit, Hnd | ].
  split; [ reflexivity | ].
  split; [ apply cross_dot_l | ].
  split; [ apply cross_dot_r | ].
  split.
  - split.
    + intros (_ & _ & _ & _ & _ & H12). rewrite E1, E2, normalized_dot in H12.
      apply div_zero_inv in H12; [ exact H12 | ].
      apply Rmult_integral_contrapositive. split; apply nonzero_norm; assumption.
    + intros Hp. apply (define_coil_orientation_orthonormal loc rot n Hrd Hnd Hp).
  - intros k m Hk Hm. unfold define_coil_orientation.
    fold (normalize (smulv k rot)). fold (normalize (smulv m n)).
    rewrite !normalize_scale by assumption. reflexivity.
Qed.

Lemma define_coil_orientation_frame_witness :
  trans3 (define_coil_orientation (V3 1 2 3) (V3 0 2 0) (V3 0 0 3)) = V3 1 2 3 /\
  orthonormal3 (block3 (define_coil_orientation (V3 1 2 3) (V3 0 2 0) (V3 0 0 3))).
Proof.
  assert (H1 : V3 0 2 0 <> zero3) by (intros E; injection E as E; lra).
  assert (H2 : V3 0 0 3 <> zero3) by (intros E; injection E as E; lra).
  destruct (define_coil_orientation_frame (V3 1 2 3) (V3 0 2 0) (V3 0 0 3) H1 H2)
    as (Ht & _ & _ & _ & _ & _ & _ & _ & _ & _ & Ho & _).
  split; [ exact Ht | ]. apply Ho. geom. ring.
Defined.

(** X13: [unitize_arr] keeps the number of rows and, on an array without
    zero rows, gives every row unit length while keeping its direction;
    applying it twice changes nothing more. *)
Theorem unitize_arr_unit (arr : list (vec3 R)) :
  Forall (fun r => r <> zero3) arr ->
  length (unitize_arr arr) = length arr /\
  Forall (fun r => norm r = 1) (unitize_arr arr) /\
  Forall2 (fun r r' => r = vmuls r' (norm r)) arr (unitize_arr arr) /\
  unitize_arr (unitize_arr arr) = unitize_arr arr.
Proof.
  intros Hnz. split; [ apply length_map | ].
  induction Hnz as [ | r arr Hr _ IH ].
  - repeat split; constructor.
  - destruct IH as (IH1 & IH2 & IH3).
    pose proof (nonzero_dot _ Hr) as Hd. pose proof (nonzero_norm _ Hr) as Hn.
    unfold unitize_arr in *. cbn [map]. fold (normalize r).
    split; [ constructor; [ apply normalize_unit, Hd | exact IH1 ] | ].
    split.
    + constructor; [ | exact IH2 ].
      unfold normalize. revert Hn. generalize (norm r). intros k Hk.
      destruct r. geom. f_equal; field; exact Hk.
    + rewrite IH3. f_equal.
      fold (normalize (normalize r)). unfold normalize at 1.
      rewrite (normalize_unit _ Hd).
      generalize (normalize r). intros [a b c]. geom. f_equal; field.
Qed.

Lemma unitize_arr_unit_witness :
  Forall (fun r => norm r = 1) (unitize_arr [V3 3 0 4; V3 0 2 0]).
Proof.
  assert (H : Forall (fun r => r <> zero3) [V3 3 0 4; V3 0 2 0]).
  { apply Forall_cons; [ | apply Forall_cons; [ | apply Forall_nil ] ];
      intros E; injection E; intros; lra. }
  exact (proj1 (proj2 (unitize_arr_unit [V3 3 0 4; V3 0 2 0] H))).
Defined.

Lemma row_dots_same_length (a b : list (vec3 R)) :
  length a = length b -> row_dots a b = Ok (zip_rows a b).
Proof.
  intros Hl. unfold row_dots.
  destruct a as [ | r [ | r' a ] ]; destruct b as [ | q [ | q' b ] ];
    try discriminate Hl; try reflexivity.
  rewrite Hl, Nat.eqb_refl. reflexivity.
Qed.

Lemma zip_rows_length (a b : list (vec3 R)) :
  length a = length b -> length (zip_rows a b) = length a.
Proof.
  revert b. induction a as [ | r a IH ]; intros [ | q b ] Hl; try discriminate Hl;
    cbn [zip_rows length]; [ reflexivity | ].
  f_equal. apply IH. injection Hl as Hl. exact Hl.
Qed.

Lemma rows_coordinates_zip (u v w : list (vec3 R)) :
  length u = length v -> length v = length w ->
  let uu := zip_rows u u in
  let uv := zip_rows u v in
  let vv := zip_rows v v in
  let wu := zip_rows w u in
  let wv := zip_rows w v in
  let D := zip_with Rminus (zip_with Rmult uv uv) (zip_with Rmult uu vv) in
  zip_with Rdiv (zip_with Rminus (zip_with Rmult uv wv) (zip_with Rmult vv wu)) D
  = map fst (rows_coordinates u v w) /\
  zip_with Rdiv (zip_with Rminus (zip_with Rmult uv wu) (zip_with Rmult uu wv)) D
  = map snd (rows_coordinates u v w).
Proof.
  revert v w. induction u as [ | a u IH ]; intros [ | b v ] [ | c w ] H1 H2;
    try discriminate H1; try discriminate H2; cbv zeta.
  - split; reflexivity.
  - injection H1 as H1. injection H2 as H2. destruct (IH v w H1 H2) as [IHs IHt].
    cbv zeta in IHs, IHt.
    cbn [zip_rows zip_with rows_coordinates map]. rewrite IHs, IHt.
    split; reflexivity.
Qed.

Lemma compute_parameteric_coordinates_rows (u v w : list (vec3 R)) :
  length u = length v -> length v = length w ->
  compute_parameteric_coordinates u v w
  = Ok (map fst (rows_coordinates u v w), map snd (rows_coordinates u v w)).
Proof.
  intros H1 H2. unfold compute_parameteric_coordinates.
  assert (H3 : length w = length u) by congruence.
  assert (H4 : length w = length v) by congruence.
  rewrite !row_dots_same_length by (reflexivity || assumption). cbn [bind].
  destruct (rows_coordinates_zip u v w H1 H2) as [Es Et]. cbv zeta in Es, Et.
  pose proof (zip_rows_length u u eq_refl) as Luu.
  pose proof (zip_rows_length u v H1) as Luv.
  pose proof (zip_rows_length v v eq_refl) as Lvv. rewrite <- H1 in Lvv.
  pose proof (zip_rows_length w u H3) as Lwu. rewrite H3 in Lwu.
  pose proof (zip_rows_length w v H4) as Lwv. rewrite H3 in Lwv.
  repeat (rewrite broadcast2_same_length
            by (rewrite ?zip_with_length; rewrite ?zip_with_length; congruence);
          cbn [bind]).
  change (@smul R R_scalar) with Rmult. change (@ssub R R_scalar) with Rminus.
  change (@sdiv R R_scalar) with Rdiv.
  rewrite Es, Et. reflexivity.
Qed.

Lemma rows_coordinates_nth (u v w : list (vec3 R)) :
  forall i a b c, nth_error u i = Some a -> nth_error v i = Some b ->
    nth_error w i = Some c ->
    nth_error (rows_coordinates u v w) i = Some (row_coordinates a b c).
Proof.
  revert v w. induction u as [ | a0 u IH ]; intros v w [ | i ] a b c Ha Hb Hc;
    try discriminate Ha; destruct v as [ | b0 v ]; try discriminate Hb;
    destruct w as [ | c0 w ]; try discriminate Hc; cbn [nth_error rows_coordinates] in *.
  - congruence.
  - apply IH; assumption.
Qed.

Lemma lagrange_neg (u v : vec3 R) :
  dot u v * dot u v - dot u u * dot v v = - dot (cross u v) (cross u v).
Proof. rewrite lagrange. ring. Qed.

Lemma row_coordinates_projection (u v w : vec3 R) :
  cross u v <> zero3 ->
  let s := fst (row_coordinates u v w) in
  let t := snd (row_coordinates u v w) in
  let r := vsub w (vadd (smulv s u) (smulv t v)) in
  dot r u = 0 /\ dot r v = 0 /\
  forall a b, w = vadd (smulv a u) (smulv b v) -> s = a /\ t = b.
Proof.
  intros Hc. pose proof (nonzero_dot _ Hc) as Hd.
  assert (HD : dot u v * dot u v - dot u u * dot v v <> 0).
  { rewrite lagrange_neg. lra. }
  unfold row_coordinates. cbn [fst snd]. cbv zeta.
  split; [ | split ].
  - transitivity (dot w u
                  - (dot u v * dot w v - dot v v * dot w u)
                    / (dot u v * dot u v - dot u u * dot v v) * dot u u
                  - (dot u v * dot w u - dot u u * dot w v)
                    / (dot u v * dot u v - dot u u * dot v v) * dot u v).
    + generalize ((dot u v * dot w v - dot v v * dot w u)
                  / (dot u v * dot u v - dot u u * dot v v))
                 ((dot u v * dot w u - dot u u * dot w v)
                  / (dot u v * dot u v - dot u u * dot v v)).
      intros s t. destruct u, v, w. geom. ring.
    + revert HD. generalize (dot u v) (dot u u) (dot v v) (dot w u) (dot w v).
      intros. field. assumption.
  - transitivity (dot w v
                  - (dot u v * dot w v - dot v v * dot w u)
                    / (dot u v * dot u v - dot u u * dot v v) * dot u v
                  - (dot u v * dot w u - dot u u * dot w v)
                    / (dot u v * dot u v - dot u u * dot v v) * dot v v).
    + generalize ((dot u v * dot w v - dot v v * dot w u)
                  / (dot u v * dot u v - dot u u * dot v v))
                 ((dot u v * dot w u - dot u u * dot w v)
                  / (dot u v * dot u v - dot u u * dot v v)).
      intros s t. destruct u, v, w. geom. ring.
    + revert HD. generalize (dot u v) (dot u u) (dot v v) (dot w u) (dot w v).
      intros. field. assumption.
  - intros a b Ew.
    assert (Ewu : dot w u = a * dot u u + b * dot u v)
      by (rewrite Ew; destruct u, v; geom; ring).
    assert (Ewv : dot w v = a * dot u v + b * dot v v)
      by (rewrite Ew; destruct u, v; geom; ring).
    rewrite Ewu, Ewv. revert HD. generalize (dot u v) (dot u u) (dot v v).
    intros p q r HD. split; field; exact HD.
Qed.

(** X14: for three arrays of one length, [compute_parameteric_coordinates]
    returns one (s, t) per row; where the edges u and v of a row are
    linearly independent, s u + t v is the orthogonal projection of w on the
    plane of u and v (the residual is orthogonal to both), so that
    w = a u + b v gives back s = a and t = b. *)
Theorem parametric_coordinates_projection (u v w : list (vec3 R)) :
  length u = length v -> length v = length w ->
  exists s t,
    compute_parameteric_coordinates u v w = Ok (s, t) /\
    length s = length u /\ length t = length u /\
    forall i ui vi wi, nth_error u i = Some ui -> nth_error v i = Some vi ->
      nth_error w i = Some wi -> cross ui vi <> zero3 ->
      exists si ti, nth_error s i = Some si /\ nth_error t i = Some ti /\
        dot (vsub wi (vadd (smulv si ui) (smulv ti vi))) ui = 0 /\
        dot (vsub wi (vadd (smulv si ui) (smulv ti vi))) vi = 0 /\
        forall a b, wi = vadd (smulv a ui) (smulv b vi) -> si = a /\ ti = b.
Proof.
  intros H1 H2. eexists. eexists.
  split; [ apply compute_parameteric_coordinates_rows; assumption | ].
  assert (Hlen : length (rows_coordinates u v w) = length u).
  { revert v w H1 H2. induction u as [ | a u IH ]; intros [ | b v ] [ | c w ] H1 H2;
      try discriminate H1; try discriminate H2; cbn [rows_coordinates length];
      [ reflexivity | ].
    f_equal. apply IH; [ injection H1 as H1 | injection H2 as H2 ]; assumption. }
  split; [ rewrite length_map; exact Hlen | ].
  split; [ rewrite length_map; exact Hlen | ].
  intros i ui vi wi Hu Hv Hw Hc.
  pose proof (rows_coordinates_nth u v w i ui vi wi Hu Hv Hw) as Hr.
  exists (fst (row_coordinates ui vi wi)), (snd (row_coordinates ui vi wi)).
  split; [ rewrite nth_error_map, Hr; reflexivity | ].
  split; [ rewrite nth_error_map, Hr; reflexivity | ].
  exact (row_coordinates_projection ui vi wi Hc).
Qed.

Lemma parametric_coordinates_projection_witness :
  exists s t,
    compute_parameteric_coordinates [V3 1 0 0] [V3 0 1 0] [V3 2 3 0] = Ok (s, t) /\
    length s = 1%nat /\ length t = 1%nat.
Proof.
  destruct (parametric_coordinates_projection [V3 1 0 0] [V3 0 1 0] [V3 2 3 0]
              eq_refl eq_refl) as (s & t & E & Hs & Ht & _).
  exists s, t. split; [ exact E | split; [ exact Hs | exact Ht ] ].
Defined.

(** * Further laws of domains.py *)

Lemma mapM_app {A B} (f : A -> result B) (l1 l2 : list A) bs1 bs2 :
  mapM f l1 = Ok bs1 -> mapM f l2 = Ok bs2 -> mapM f (l1 ++ l2) = Ok (bs1 ++ bs2).
Proof.
  revert bs1. induction l1 as [ | a l1 IH ]; intros bs1 E1 E2.
  - injection E1 as <-. exact E2.
  - cbn [mapM app] in *. destruct (f a) as [b|e]; [ | discriminate E1 ]. cbn [bind] in *.
    destruct (mapM f l1) as [bs|e]; [ | discriminate E1 ]. cbn [bind] in *.
    injection E1 as <-. rewrite (IH bs eq_refl E2). reflexivity.
Qed.

Lemma take_where_from {A B} (f : B -> bool) (l : list B) :
  forall (pre arr : list A), length arr = length l ->
  take (pre ++ arr) (where_from (length pre) (map f l))
  = Ok (map fst (filter (fun ab => f (snd ab)) (combine arr l))).
Proof.
  induction l as [ | b l IH ]; intros pre arr Hl.
  - destruct arr; [ reflexivity | discriminate Hl ].
  - destruct arr as [ | a arr ]; [ discriminate Hl | ]. injection Hl as Hl.
    cbn [map where_from combine filter snd].
    assert (IH' : take (pre ++ a :: arr) (where_from (S (length pre)) (map f l))
                  = Ok (map fst (filter (fun ab => f (snd ab)) (combine arr l)))).
    { pose proof (IH (pre ++ [a]) arr Hl) as E.
      rewrite <- app_assoc in E. cbn [app] in E.
      rewrite length_app in E. cbn [length] in E. rewrite Nat.add_1_r in E. exact E. }
    destruct (f b).
    + cbn [map fst].
      apply (mapM_app _ [length pre] _ [a]); [ | exact IH' ].
      cbn [mapM]. rewrite nth_error_app2 by lia. rewrite Nat.sub_diag. reflexivity.
    + exact IH'.
Qed.

Lemma filter_combine_self {A} (f : A -> bool) (l : list A) :
  map fst (filter (fun ab => f (snd ab)) (combine l l)) = filter f l.
Proof.
  induction l as [ | a l IH ]; [ reflexivity | ].
  cbn [combine filter snd]. destruct (f a); cbn [map fst]; rewrite IH; reflexivity.
Qed.

Lemma neighbours_take (coords : list (vec3 R)) (p : vec3 R) (r : R) :
  take coords (neighbours_ind coords p r) = Ok (filter (within p r) coords).
Proof.
  unfold neighbours_ind, np_where.
  pose proof (take_where_from (fun c : vec3 R => sltb (norm (vsub c p)) r) coords
                [] coords eq_refl) as E.
  cbn [app length] in E. rewrite E. f_equal. exact (filter_combine_self (within p r) coords).
Qed.

Lemma within_iff (p : vec3 R) (r : R) (c : vec3 R) :
  within p r c = true <-> norm (vsub c p) < r.
Proof.
  unfold within, Rltb. destruct (Rlt_dec (norm (vsub c p)) r); split; intros; try assumption;
    try reflexivity; try discriminate; contradiction.
Qed.

Lemma where_from_in (mask : list bool) :
  forall k j, nth_error mask j = Some true -> In (k + j)%nat (where_from k mask).
Proof.
  induction mask as [ | m mask IH ]; intros k [ | j ] Hj; try discriminate Hj;
    cbn [where_from nth_error] in *.
  - injection Hj as ->. left. lia.
  - apply in_or_app. right. replace (k + S j)%nat with (S k + j)%nat by lia.
    apply IH, Hj.
Qed.

Lemma take_out_of_range {A} (arr : list A) (idx : list nat) (i : nat) :
  In i idx -> (length arr <= i)%nat -> take arr idx = Raise IndexError.
Proof.
  intros Hin Hi. unfold take. induction idx as [ | a idx IH ]; [ destruct Hin | ].
  cbn [mapM]. destruct (nth_error arr a) as [x|] eqn:Ea; [ | reflexivity ].
  cbn [bind]. destruct Hin as [->|Hin].
  - apply nth_error_None in Hi. rewrite Hi in Ea. discriminate Ea.
  - rewrite (IH Hin). reflexivity.
Qed.

(** X15: the neighbourhood that [_construct_local_quadric] and
    [_initialize_quadratic_surface] select with np.where is the list of the
    mesh points at distance less than the radius, in mesh order, and nothing
    else (none at all for a radius that is not positive); the node tags
    selected with the same indices are the tags of these points when there
    is one tag per point, and the selection raises IndexError when a point
    of the neighbourhood has no tag. *)
Theorem neighbourhood_is_filter (coords : list (vec3 R)) (tags : list nat)
  (p : vec3 R) (r : R) :
  take coords (neighbours_ind coords p r) = Ok (filter (within p r) coords) /\
  (forall c, In c (filter (within p r) coords) <-> In c coords /\ norm (vsub c p) < r) /\
  (r <= 0 -> take coords (neighbours_ind coords p r) = Ok []) /\
  (length tags = length coords ->
   take tags (neighbours_ind coords p r)
   = Ok (map fst (filter (fun tc => within p r (snd tc)) (combine tags coords)))) /\
  (forall i c, nth_error coords i = Some c -> norm (vsub c p) < r ->
     (length tags <= i)%nat ->
     take tags (neighbours_ind coords p r) = Raise IndexError).
Proof.
  split; [ apply neighbours_take | ].
  split; [ intros c; rewrite filter_In, within_iff; reflexivity | ].
  split; [ | split ].
  - intros Hr. rewrite neighbours_take. f_equal.
    induction coords as [ | c coords IH ]; [ reflexivity | ].
    cbn [filter]. destruct (within p r c) eqn:E; [ | exact IH ].
    apply within_iff in E. pose proof (norm_nonneg (vsub c p)). lra.
  - intros Hl. unfold neighbours_ind, np_where.
    exact (take_where_from (fun c : vec3 R => sltb (norm (vsub c p)) r) coords [] tags Hl).
  - intros i c Hc Hd Hi. apply (take_out_of_range tags _ i); [ | exact Hi ].
    unfold neighbours_ind, np_where.
    apply (where_from_in _ 0 i). rewrite nth_error_map, Hc. cbn [option_map].
    f_equal. apply within_iff, Hd.
Qed.

(** The minimum and the maximum that [np.min] and [np.max] fold. *)
Lemma smin_spec (a b : R) : smin a b <= a /\ smin a b <= b /\ (smin a b = a \/ smin a b = b).
Proof.
  unfold smin. cbn [sltb R_scalar]. unfold Rltb. destruct (Rlt_dec b a); lra.
Qed.

Lemma smax_spec (a b : R) : a <= smax a b /\ b <= smax a b /\ (smax a b = a \/ smax a b = b).
Proof.
  unfold smax. cbn [sltb R_scalar]. unfold Rltb. destruct (Rlt_dec a b); lra.
Qed.

Lemma fold_axis (f : R -> R -> R) (l : list (vec3 R)) :
  forall r,
  fold_left (fun m c => V3 (f (vx m) (vx c)) (f (vy m) (vy c)) (f (vz m) (vz c))) l r
  = V3 (fold_left (fun m c => f m (vx c)) l (vx r))
       (fold_left (fun m c => f m (vy c)) l (vy r))
       (fold_left (fun m c => f m (vz c)) l (vz r)).
Proof.
  induction l as [ | c l IH ]; intros r; [ destruct r; reflexivity | ].
  cbn [fold_left]. rewrite IH. reflexivity.
Qed.

Lemma fold_smin (g : vec3 R -> R) (l : list (vec3 R)) :
  forall m0,
  let m := fold_left (fun m c => smin m (g c)) l m0 in
  m <= m0 /\ (forall c, In c l -> m <= g c) /\ (m = m0 \/ exists c, In c l /\ m = g c).
Proof.
  induction l as [ | c l IH ]; intros m0; cbn [fold_left].
  - split; [ lra | split; [ intros c [] | left; reflexivity ] ].
  - destruct (IH (smin m0 (g c))) as (H1 & H2 & H3).
    destruct (smin_spec m0 (g c)) as (S1 & S2 & S3).
    split; [ lra | split ].
    + intros c' [<-|Hin]; [ lra | apply H2, Hin ].
    + destruct H3 as [H3|(c' & Hin & H3)].
      * destruct S3 as [S3|S3]; [ left; lra | right; exists c; split; [ left; reflexivity | lra ] ].
      * right. exists c'. split; [ right; exact Hin | exact H3 ].
Qed.

Lemma fold_smax (g : vec3 R -> R) (l : list (vec3 R)) :
  forall m0,
  let m := fold_left (fun m c => smax m (g c)) l m0 in
  m0 <= m /\ (forall c, In c l -> g c <= m) /\ (m = m0 \/ exists c, In c l /\ m = g c).
Proof.
  induction l as [ | c l IH ]; intros m0; cbn [fold_left].
  - split; [ lra | split; [ intros c [] | left; reflexivity ] ].
  - destruct (IH (smax m0 (g c))) as (H1 & H2 & H3).
    destruct (smax_spec m0 (g c)) as (S1 & S2 & S3).
    split; [ lra | split ].
    + intros c' [<-|Hin]; [ lra | apply H2, Hin ].
    + destruct H3 as [H3|(c' & Hin & H3)].
      * destruct S3 as [S3|S3]; [ left; lra | right; exists c; split; [ left; reflexivity | lra ] ].
      * right. exists c'. split; [ right; exact Hin | exact H3 ].
Qed.

Lemma reduce_min (g : vec3 R -> R) (l : list (vec3 R)) (r : vec3 R) :
  let m := fold_left (fun m c => smin m (g c)) l (g r) in
  (forall c, In c (r :: l) -> m <= g c) /\ exists c, In c (r :: l) /\ m = g c.
Proof.
  destruct (fold_smin g l (g r)) as (H1 & H2 & H3). cbv zeta. split.
  - intros c [<-|Hin]; [ exact H1 | apply H2, Hin ].
  - destruct H3 as [H3|(c & Hin & H3)].
    + exists r. split; [ left; reflexivity | exact H3 ].
    + exists c. split; [ right; exact Hin | exact H3 ].
Qed.

Lemma reduce_max (g : vec3 R -> R) (l : list (vec3 R)) (r : vec3 R) :
  let m := fold_left (fun m c => smax m (g c)) l (g r) in
  (forall c, In c (r :: l) -> g c <= m) /\ exists c, In c (r :: l) /\ m = g c.
Proof.
  destruct (fold_smax g l (g r)) as (H1 & H2 & H3). cbv zeta. split.
  - intros c [<-|Hin]; [ exact H1 | apply H2, Hin ].
  - destruct H3 as [H3|(c & Hin & H3)].
    + exists r. split; [ left; reflexivity | exact H3 ].
    + exists c. split; [ right; exact Hin | exact H3 ].
Qed.

(** [np.min(a, axis=0)] and [np.max(a, axis=0)]: bounds of every row, each
    attained. *)
Lemma np_min_spec (a : list (vec3 R)) (m : vec3 R) :
  np_reduce_axis0 smin a = Ok m ->
  (forall c, In c a -> vx m <= vx c /\ vy m <= vy c /\ vz m <= vz c) /\
  (exists c, In c a /\ vx m = vx c) /\ (exists c, In c a /\ vy m = vy c) /\
  (exists c, In c a /\ vz m = vz c).
Proof.
  destruct a as [ | r l ]; [ discriminate | ]. unfold np_reduce_axis0.
  intros E. injection E as <-. rewrite fold_axis. cbn [vx vy vz].
  destruct (reduce_min vx l r) as [X1 X2]. destruct (reduce_min vy l r) as [Y1 Y2].
  destruct (reduce_min vz l r) as [Z1 Z2]. cbv zeta in *.
  split; [ intros c Hc; split; [ apply X1, Hc | split; [ apply Y1, Hc | apply Z1, Hc ] ] | ].
  split; [ exact X2 | split; [ exact Y2 | exact Z2 ] ].
Qed.

Lemma np_max_spec (a : list (vec3 R)) (m : vec3 R) :
  np_reduce_axis0 smax a = Ok m ->
  (forall c, In c a -> vx c <= vx m /\ vy c <= vy m /\ vz c <= vz m) /\
  (exists c, In c a /\ vx m = vx c) /\ (exists c, In c a /\ vy m = vy c) /\
  (exists c, In c a /\ vz m = vz c).
Proof.
  destruct a as [ | r l ]; [ discriminate | ]. unfold np_reduce_axis0.
  intros E. injection E as <-. rewrite fold_axis. cbn [vx vy vz].
  destruct (reduce_max vx l r) as [X1 X2]. destruct (reduce_max vy l r) as [Y1 Y2].
  destruct (reduce_max vz l r) as [Z1 Z2]. cbv zeta in *.
  split; [ intros c Hc; split; [ apply X1, Hc | split; [ apply Y1, Hc | apply Z1, Hc ] ] | ].
  split; [ exact X2 | split; [ exact Y2 | exact Z2 ] ].
Qed.

Section Bounds.
Context `{LinAlg R} `{MeshLib R}.

Lemma init_inv (mesh : Mesh R) (p0 : vec3 R) (sp ls d : option R) (D : QuadraticDomain) :
  QuadraticDomain_init mesh p0 sp ls d = Ok D ->
  let v := closest_point2surf p0 (coords mesh) in
  span D = match sp with Some s => s | None => 35 end /\
  local_span D = match ls with Some s => s | None => 8 end /\
  distance D = match d with Some s => s | None => 1 end /\
  exists A minarr maxarr,
    _construct_local_quadric (local_span D) mesh v = Ok (C D, A, iR D) /\
    np_reduce_axis0 smin (affine A (filter (within v (span D)) (coords mesh))) = Ok minarr /\
    np_reduce_axis0 smax (affine A (filter (within v (span D)) (coords mesh))) = Ok maxarr /\
    bounds D = [(vx minarr, vx maxarr); (vy minarr, vy maxarr); (vz minarr, vz maxarr)].
Proof.
  intros E v. unfold QuadraticDomain_init, _initialize_quadratic_surface in E.
  fold v in E.
  set (sp' := match sp with Some s => s | None => lit 35 end) in *.
  set (ls' := match ls with Some s => s | None => lit 8 end) in *.
  set (d' := match d with Some s => s | None => lit 1 end) in *.
  destruct (_construct_local_quadric ls' mesh v) as [[[C0 A] iA]|e] eqn:Ec;
    [ | discriminate E ].
  cbn [bind] in E. rewrite neighbours_take in E. cbn [bind] in E.
  destruct (np_reduce_axis0 smin _) as [mn|e] eqn:Emin; [ | discriminate E ].
  cbn [bind] in E.
  destruct (np_reduce_axis0 smax _) as [mx|e] eqn:Emax; [ | discriminate E ].
  cbn [bind] in E. injection E as <-. cbn [span local_span distance C iR bounds].
  split; [ reflexivity | split; [ reflexivity | split; [ reflexivity | ] ] ].
  exists A, mn, mx. repeat split; assumption.
Qed.

(** X16: a constructed domain records the radii and the distance it was
    given (35, 8 and 1 by default), and its bounds are the bounding box of
    the neighbourhood of radius [span] in the coordinates of the coarse frame:
    each row is the least and the greatest value of one coordinate over the
    mesh points within [span] of the snapped anchor, mapped by the forward
    frame that the coarse fit (of radius [local_span]) built; every such
    point lies inside the box, and the box is not empty. *)
Theorem bounds_are_extent (mesh : Mesh R) (p0 : vec3 R)
  (sp ls d : option R) (D : QuadraticDomain) :
  QuadraticDomain_init mesh p0 sp ls d = Ok D ->
  let v := closest_point2surf p0 (coords mesh) in
  let nb := filter (within v (span D)) (coords mesh) in
  span D = match sp with Some s => s | None => 35 end /\
  local_span D = match ls with Some s => s | None => 8 end /\
  distance D = match d with Some s => s | None => 1 end /\
  exists A x0 x1 y0 y1 z0 z1,
    _construct_local_quadric (local_span D) mesh v = Ok (C D, A, iR D) /\
    bounds D = [(x0, x1); (y0, y1); (z0, z1)] /\
    extent vx (affine A nb) x0 x1 /\
    extent vy (affine A nb) y0 y1 /\
    extent vz (affine A nb) z0 z1 /\
    x0 <= x1 /\ y0 <= y1 /\ z0 <= z1 /\
    forall q, In q (coords mesh) -> norm (vsub q v) < span D ->
      x0 <= vx (affine1 A q) <= x1 /\
      y0 <= vy (affine1 A q) <= y1 /\
      z0 <= vz (affine1 A q) <= z1.
Proof.
  intros E v nb.
  destruct (init_inv _ _ _ _ _ _ E) as (Esp & Els & Ed & A & mn & mx & Ec & Emin & Emax & Eb).
  fold v in Ec, Emin, Emax. fold nb in Emin, Emax.
  split; [ exact Esp | split; [ exact Els | split; [ exact Ed | ] ] ].
  exists A, (vx mn), (vx mx), (vy mn), (vy mx), (vz mn), (vz mx).
  split; [ exact Ec | split; [ exact Eb | ] ].
  destruct (np_min_spec _ _ Emin) as (Lo & Lx & Ly & Lz).
  destruct (np_max_spec _ _ Emax) as (Hi & Hx & Hy & Hz).
  assert (Ex : extent vx (affine A nb) (vx mn) (vx mx)).
  { split; [ intros q Hq; pose proof (Lo q Hq); pose proof (Hi q Hq); lra | ].
    split; [ destruct Lx as (c & Hc & Em); exists c; split; [ exact Hc | symmetry; exact Em ]
           | destruct Hx as (c & Hc & Em); exists c; split; [ exact Hc | symmetry; exact Em ] ]. }
  assert (Ey : extent vy (affine A nb) (vy mn) (vy mx)).
  { split; [ intros q Hq; pose proof (Lo q Hq); pose proof (Hi q Hq); lra | ].
    split; [ destruct Ly as (c & Hc & Em); exists c; split; [ exact Hc | symmetry; exact Em ]
           | destruct Hy as (c & Hc & Em); exists c; split; [ exact Hc | symmetry; exact Em ] ]. }
  assert (Ez : extent vz (affine A nb) (vz mn) (vz mx)).
  { split; [ intros q Hq; pose proof (Lo q Hq); pose proof (Hi q Hq); lra | ].
    split; [ destruct Lz as (c & Hc & Em); exists c; split; [ exact Hc | symmetry; exact Em ]
           | destruct Hz as (c & Hc & Em); exists c; split; [ exact Hc | symmetry; exact Em ] ]. }
  split; [ exact Ex | split; [ exact Ey | split; [ exact Ez | ] ] ].
  destruct Lx as (c & Hc & _). pose proof (Lo c Hc) as Hlo. pose proof (Hi c Hc) as Hhi.
  split; [ lra | split; [ lra | split; [ lra | ] ] ].
  intros q Hq Hd.
  assert (Hin : In (affine1 A q) (affine A nb)).
  { unfold affine. apply in_map. apply filter_In. split; [ exact Hq | ].
    apply within_iff, Hd. }
  pose proof (Lo _ Hin). pose proof (Hi _ Hin). lra.
Qed.

(** X17: when the coarse fit at the snapped anchor succeeds but no mesh
    point lies within [span] of the anchor (so for every span that is not
    positive), the constructor raises ValueError: np.min is applied to an
    empty array. *)
Theorem empty_span_raises (mesh : Mesh R) (p0 : vec3 R) (sp ls : R) (d : option R)
  C0 A iA :
  _construct_local_quadric ls mesh (closest_point2surf p0 (coords mesh)) = Ok (C0, A, iA) ->
  Forall (fun q => sp <= norm (vsub q (closest_point2surf p0 (coords mesh)))) (coords mesh) ->
  QuadraticDomain_init mesh p0 (Some sp) (Some ls) d = Raise ValueError.
Proof.
  intros Ec Hf. unfold QuadraticDomain_init, _initialize_quadratic_surface.
  rewrite Ec. cbn [bind]. rewrite neighbours_take.
  replace (filter _ (coords mesh)) with (@nil (vec3 R)); [ reflexivity | ].
  symmetry. clear Ec. revert Hf.
  generalize (closest_point2surf p0 (coords mesh)). intros v Hf.
  induction Hf as [ | q l Hq _ IH ]; [ reflexivity | ].
  cbn [filter]. destruct (within _ sp q) eqn:E; [ | exact IH ].
  apply within_iff in E. lra.
Qed.

(** X18: the two frames that [_construct_local_quadric] returns are
    anchored at its point [p]: the forward frame takes [p] to the origin,
    the inverse frame takes the origin back to [p] and has [p] as its
    translation column; both have the last row (0,0,0,1), the rotation
    block of the inverse is the transpose of the forward one, and the frames
    act as x -> R (x - p) and y -> R^T y + p. *)
Theorem local_frames_anchor (ls : R) (mesh : Mesh R) (p : vec3 R) C0 A iA :
  _construct_local_quadric ls mesh p = Ok (C0, A, iA) ->
  affine1 A p = zero3 /\
  affine1 iA zero3 = p /\
  trans3 iA = p /\
  m4r3 A = V4 0 0 0 1 /\ m4r3 iA = V4 0 0 0 1 /\
  block3 iA = transpose3 (block3 A) /\
  (forall q, affine1 A q = m3v (block3 A) (vsub q p)) /\
  (forall q, affine1 iA q = vadd (m3v (block3 iA) q) p).
Proof.
  intros Ec. destruct (construct_inv _ _ _ _ _ _ Ec) as (nb & nrm & _ & -> & -> & _).
  set (n := normalize nrm).
  assert (Ef : forall q, affine1 (fst (local_frames n p)) q
                         = m3v (block3 (fst (local_frames n p))) (vsub q p)).
  { intros q. rewrite frames_forward_apply, frames_forward_block. reflexivity. }
  assert (Ei : forall q, affine1 (snd (local_frames n p)) q
                         = vadd (m3v (block3 (snd (local_frames n p))) q) p).
  { intros q. rewrite frames_inverse_apply, frames_inverse_block. reflexivity. }
  split; [ rewrite Ef; generalize (block3 (fst (local_frames n p))); intros B;
           destruct p; unfold zero3; geom; f_equal; ring | ].
  split; [ rewrite Ei; generalize (block3 (snd (local_frames n p))); intros B;
           destruct p; unfold zero3; geom; f_equal; ring | ].
  split; [ generalize (rotate_vec2vec n (V3 s0 s0 s1)); intros B;
           destruct p; unfold zero3, local_frames, store; geom; f_equal; ring | ].
  split; [ unfold local_frames, store; geom; f_equal; ring | ].
  split; [ unfold local_frames, store; geom; f_equal; ring | ].
  split; [ rewrite frames_forward_block, frames_inverse_block; reflexivity | ].
  split; assumption.
Qed.

Lemma standoff_norm (v n : vec3 R) (d : R) :
  dot n n = 1 -> norm (vsub (vadd v (vmuls n d)) v) = Rabs d.
Proof.
  intros Hu. unfold norm. cbn [ssqrt R_scalar].
  replace (dot (vsub (vadd v (vmuls n d)) v) (vsub (vadd v (vmuls n d)) v))
    with (Rsqr d * dot n n)
    by (unfold Rsqr; destruct v, n; geom; ring).
  rewrite Hu, Rmult_1_r. apply sqrt_Rsqr_abs.
Qed.

(** X19: [place_coil] puts the coil centre at the position that
    [_get_sample] returns for (x, y): the translation column of the pose is
    that position, at distance |distance| from the snapped mesh point when
    the normal given by the mesh is not parallel to the z axis; the angle
    [theta] and [flip_norm] only turn the coil, every pose returned for the
    same (x, y) has the same centre. *)
Theorem place_coil_position (self : QuadraticDomain) (mesh : Mesh R)
  (x y theta : R) (flip_norm : option bool) nb nrm sample iA C0 n M :
  patch_normals (local_span self) mesh (snapped self mesh x y) = Ok (nb, nrm) ->
  tilted nrm ->
  _get_sample self mesh x y = Ok (sample, iA, C0, n) ->
  place_coil self mesh x y theta flip_norm = Ok M ->
  trans3 M = sample /\
  affine1 M zero3 = sample /\
  m4r3 M = V4 0 0 0 1 /\
  norm (vsub (trans3 M) (snapped self mesh x y)) = Rabs (distance self) /\
  forall theta' flip' M',
    place_coil self mesh x y theta' flip' = Ok M' -> trans3 M' = trans3 M.
Proof.
  intros Epn Ht Es Ep.
  assert (Hpos : forall t f M0, place_coil self mesh x y t f = Ok M0 ->
            exists rot nn, M0 = define_coil_orientation sample rot nn).
  { intros t f M0 E. unfold place_coil, coil_frame in E. rewrite Es in E. cbn [bind] in E.
    destruct (quadratic_surf_rotation s0 s0 t C0) as [[pr pn]|e]; [ | discriminate E ].
    cbn [bind] in E. injection E as <-. eexists. eexists. reflexivity. }
  destruct (Hpos _ _ _ Ep) as (rot & nn & ->).
  assert (Et : trans3 (define_coil_orientation sample rot nn) = sample)
    by (destruct sample; reflexivity).
  split; [ exact Et | ].
  split; [ destruct sample; unfold zero3, define_coil_orientation; geom; f_equal; ring | ].
  split; [ reflexivity | ]. split.
  - rewrite Et.
    destruct (sample_frame _ _ _ _ _ _ _ _ _ _ Epn Ht Es) as (Ho & En & _ & Esample).
    rewrite Esample. apply standoff_norm. apply normalize_dot.
    rewrite orthonormal3_dot by assumption. rewrite En.
    pose proof (surf_normal_unit 0 0 C0) as Hn. apply norm_unit_iff in Hn.
    rewrite Hn. lra.
  - intros t f M' E'. destruct (Hpos _ _ _ E') as (rot' & nn' & ->).
    destruct sample; reflexivity.
Qed.


End Bounds.

Lemma tri_span_empty :
  Forall (fun q => 0 <= norm (vsub q (@closest_point2surf R tri_meshlib origin (coords tri_mesh))))
         (coords tri_mesh).
Proof. apply Forall_forall. intros q _. apply norm_nonneg. Qed.

Lemma empty_span_raises_witness :
  @QuadraticDomain_init R R_scalar flat_linalg tri_meshlib tri_mesh origin
    (Some 0) (Some 8) None = Raise ValueError.
Proof.
  exact (@empty_span_raises flat_linalg tri_meshlib tri_mesh origin 0 8 None _ _ _
           tri_construct tri_span_empty).
Defined.

Lemma bounds_are_extent_witness :
  exists A x0 x1 y0 y1 z0 z1,
    @_construct_local_quadric R R_scalar flat_linalg tri_meshlib
      (local_span tri_domain) tri_mesh origin = Ok (C tri_domain, A, iR tri_domain) /\
    bounds tri_domain = [(x0, x1); (y0, y1); (z0, z1)] /\ x0 <= x1.
Proof.
  destruct (@bounds_are_extent flat_linalg tri_meshlib tri_mesh origin
              None None None tri_domain tri_init)
    as (_ & _ & _ & A & x0 & x1 & y0 & y1 & z0 & z1 & Ec & Eb & _ & _ & _ & Hx & _).
  exists A, x0, x1, y0, y1, z0, z1.
  split; [ exact Ec | split; [ exact Eb | exact Hx ] ].
Defined.

Lemma local_frames_anchor_witness :
  affine1 tri_forward origin = zero3 /\ affine1 tri_inverse zero3 = origin.
Proof.
  destruct (@local_frames_anchor flat_linalg tri_meshlib 8 tri_mesh origin _ _ _ tri_construct)
    as (H1 & H2 & _).
  split; [ exact H1 | exact H2 ].
Defined.

(** [_get_sample] and [coil_frame] on the planar patch, with the solver that
    answers with the plane z = x. *)
Lemma slope_get_sample :
  exists sample iA n,
    @_get_sample R R_scalar slope_linalg tri_meshlib tri_domain tri_mesh 0 0
    = Ok (sample, iA, V6 0 1 0 0 0 0, n).
Proof.
  destruct (@get_sample_total slope_linalg tri_meshlib tri_domain tri_mesh 0 0 eq_refl
              slope_lstsq_total slope_eig_total)
    as [[[[sample iA] C0] n] Es].
  assert (EC : C0 = V6 0 1 0 0 0 0).
  { destruct (@get_sample_inv slope_linalg tri_meshlib _ _ _ _ _ _ _ _ Es)
      as (A & w & V & Ec & _).
    destruct (@construct_inv slope_linalg tri_meshlib _ _ _ _ _ _ Ec)
      as (nb & nrm & _ & _ & _ & Eq).
    unfold quad_fit in Eq. cbn [lstsq slope_linalg bind] in Eq.
    injection Eq as <-. reflexivity. }
  subst C0. exists sample, iA, n. exact Es.
Qed.

Lemma slope_coil_frame (theta : R) :
  exists sample rot n,
    @coil_frame R R_scalar R_trig slope_linalg tri_meshlib tri_domain tri_mesh 0 0 theta
    = Ok (sample, rot, n) /\ rot <> zero3 /\ n <> zero3.
Proof.
  destruct slope_get_sample as (sample & iA & n0 & Es).
  assert (Ee : @eig R slope_linalg (second_form 0 0 (V6 0 1 0 0 0 0)) = Ok (V2 0 0, eye2))
    by reflexivity.
  destruct (@sample_frame slope_linalg tri_meshlib tri_domain tri_mesh 0 0
              (coords tri_mesh) (V3 1 0 0) sample iA (V6 0 1 0 0 0 0) n0
              tri_patch tilted_x Es) as (Ho & _).
  assert (Hc : c1 (V6 0 1 0 0 0 0) <> 0 \/ c2 (V6 0 1 0 0 0 0) <> 0)
    by (left; cbn [c1]; lra).
  assert (Hd : det2 eye2 <> 0)
    by (unfold det2, eye2; cbn [v2x v2y m2r0 m2r1]; lra).
  destruct (coil_axes (block3 iA) (V6 0 1 0 0 0 0) eye2 theta Ho Hc Hd) as (Hr & Hn & _).
  cbv zeta in Hr, Hn.
  eexists. eexists. eexists.
  split; [ exact (@coil_frame_eq slope_linalg tri_meshlib tri_domain tri_mesh 0 0 theta
                    _ _ _ _ _ _ Es Ee) | ].
  split.
  - intros E. apply Hr. rewrite E. unfold zero3. geom. ring.
  - intros E. rewrite E in Hn. revert Hn. unfold zero3. geom. lra.
Qed.

Lemma place_coil_position_witness :
  exists M,
    @place_coil R R_scalar R_trig slope_linalg tri_meshlib tri_domain tri_mesh 0 0 0 None
    = Ok M /\
    norm (vsub (trans3 M) origin) = Rabs 1.
Proof.
  destruct slope_get_sample as (sample & iA & n0 & Es).
  destruct (slope_coil_frame 0) as (s & rot & nn & Ecf & _).
  assert (Ep : @place_coil R R_scalar R_trig slope_linalg tri_meshlib tri_domain tri_mesh
                 0 0 0 None = Ok (define_coil_orientation s rot (smulv (-1) nn))).
  { unfold place_coil. rewrite Ecf. reflexivity. }
  eexists. split; [ exact Ep | ].
  exact (proj1 (proj2 (proj2 (proj2
           (@place_coil_position slope_linalg tri_meshlib tri_domain tri_mesh 0 0 0 None
              _ _ _ _ _ _ _ tri_patch tilted_x Es Ep))))).
Defined.


(** ** The axis of the coil *)

Lemma normalize_of_unit (v : vec3 R) : dot v v = 1 -> normalize v = v.
Proof.
  intros Hu. unfold normalize. rewrite (proj2 (norm_unit_iff v) Hu).
  destruct v. geom. f_equal; field.
Qed.

Section Axis.
Context `{LinAlg R} `{MeshLib R}.

(** X28: the z axis of the pose that [place_coil] returns is the line
    through the coil centre and the snapped mesh point: when the normal
    given by the mesh is not parallel to the z axis, the z column is the
    fine-fit normal in global coordinates times [normflip], a unit vector,
    and the snapped point is the centre minus normflip * distance times the
    z column.  With the default [flip_norm] the z axis points from the coil
    towards the mesh point. *)
Theorem place_coil_axis_through_mesh_point (self : QuadraticDomain) (mesh : Mesh R)
  (x y theta : R) (flip_norm : option bool) nb nrm sample iA C0 n M :
  patch_normals (local_span self) mesh (snapped self mesh x y) = Ok (nb, nrm) ->
  tilted nrm ->
  _get_sample self mesh x y = Ok (sample, iA, C0, n) ->
  place_coil self mesh x y theta flip_norm = Ok M ->
  norm (col2 (block3 M)) = 1 /\
  col2 (block3 M) = smulv (flip_sign flip_norm) (m3v (block3 iA) n) /\
  snapped self mesh x y
  = vsub (trans3 M) (vmuls (col2 (block3 M)) (flip_sign flip_norm * distance self)).
Proof.
  intros Epn Ht Es Ep.
  destruct (sample_frame _ _ _ _ _ _ _ _ _ _ Epn Ht Es) as (Ho & En & (w & V & Ee) & Esample).
  set (ng := m3v (block3 iA) n) in *.
  assert (Hng : dot ng ng = 1).
  { unfold ng. rewrite orthonormal3_dot by exact Ho. rewrite En.
    apply norm_unit_iff, surf_normal_unit. }
  assert (Main : forall (k : R) (rot : vec3 R), k * k = 1 ->
            norm (col2 (block3 (define_coil_orientation sample rot (smulv k ng)))) = 1 /\
            col2 (block3 (define_coil_orientation sample rot (smulv k ng))) = smulv k ng /\
            snapped self mesh x y
            = vsub (trans3 (define_coil_orientation sample rot (smulv k ng)))
                   (vmuls (col2 (block3 (define_coil_orientation sample rot (smulv k ng))))
                          (k * distance self))).
  { intros k rot Hk.
    assert (Hkn : dot (smulv k ng) (smulv k ng) = 1).
    { replace (dot (smulv k ng) (smulv k ng)) with (k * k * dot ng ng)
        by (destruct ng; geom; ring).
      rewrite Hk, Hng. ring. }
    assert (Ez : col2 (block3 (define_coil_orientation sample rot (smulv k ng)))
                 = smulv k ng).
    { transitivity (normalize (smulv k ng)); [ reflexivity | ].
      apply normalize_of_unit, Hkn. }
    rewrite Ez.
    split; [ apply norm_unit_iff, Hkn | split; [ reflexivity | ] ].
    replace (trans3 (define_coil_orientation sample rot (smulv k ng))) with sample
      by (destruct sample; reflexivity).
    rewrite Esample. fold ng. rewrite (normalize_of_unit ng Hng).
    generalize (snapped self mesh x y) (distance self). intros v d.
    destruct v as [v1 v2 v3], ng as [g1 g2 g3]. geom.
    f_equal; [ transitivity (v1 + g1 * d - (k * k) * (g1 * d)); [ rewrite Hk | ]
             | transitivity (v2 + g2 * d - (k * k) * (g2 * d)); [ rewrite Hk | ]
             | transitivity (v3 + g3 * d - (k * k) * (g3 * d)); [ rewrite Hk | ] ]; ring. }
  unfold place_coil in Ep. rewrite (coil_frame_eq _ _ _ _ theta _ _ _ _ _ _ Es Ee) in Ep.
  cbn [bind] in Ep. rewrite <- En in Ep. fold ng in Ep.
  destruct flip_norm as [[|]|]; injection Ep as <-; cbn [flip_sign];
    first [ change (@lit R R_scalar (-1)) with (-1) | change (@lit R R_scalar 1) with 1 ];
    apply Main; ring.
Qed.
End Axis.

Lemma place_coil_axis_through_mesh_point_witness :
  exists M,
    @place_coil R R_scalar R_trig slope_linalg tri_meshlib tri_domain tri_mesh 0 0 0 None
    = Ok M /\
    origin = vsub (trans3 M) (vmuls (col2 (block3 M)) (-1 * 1)).
Proof.
  destruct slope_get_sample as (sample & iA & n0 & Es).
  destruct (slope_coil_frame 0) as (s & rot & nn & Ecf & _).
  assert (Ep : @place_coil R R_scalar R_trig slope_linalg tri_meshlib tri_domain tri_mesh
                 0 0 0 None = Ok (define_coil_orientation s rot (smulv (-1) nn))).
  { unfold place_coil. rewrite Ecf. reflexivity. }
  eexists. split; [ exact Ep | ].
  exact (proj2 (proj2
           (@place_coil_axis_through_mesh_point slope_linalg tri_meshlib tri_domain tri_mesh
              0 0 0 None _ _ _ _ _ _ _ tri_patch tilted_x Es Ep))).
Defined.

(** * Laws of optimization/grid.py *)

Lemma firstn_add_skipn {A} (n m : nat) (l : list A) :
  firstn (n + m) l = firstn n l ++ firstn m (skipn n l).
Proof.
  revert l. induction n as [ | n IH ]; intros l; [ reflexivity | ].
  destruct l as [ | a l ]; [ cbn; rewrite firstn_nil; reflexivity | ].
  cbn [Nat.add firstn skipn app]. rewrite IH. reflexivity.
Qed.

Lemma firstn_seq_min (k : nat) : forall s n, firstn k (seq s n) = seq s (Nat.min k n).
Proof.
  induction k as [ | k IH ]; intros s n; [ reflexivity | ].
  destruct n as [ | n ]; [ reflexivity | ].
  cbn [seq firstn Nat.min]. rewrite IH. reflexivity.
Qed.

Lemma split_from_chunks {A} (b : nat) (ary : list A) (c : nat) :
  forall j,
  split_from (j * b) ary (map (fun k => (b + k * b)%nat) (seq j c))
  = map (chunk b ary) (seq j c) ++ [skipn ((j + c) * b) ary].
Proof.
  induction c as [ | c IH ]; intros j.
  - cbn [seq map split_from app]. rewrite Nat.add_0_r. reflexivity.
  - cbn [seq map split_from app].
    replace (b + j * b - j * b)%nat with b by lia.
    replace (b + j * b)%nat with (S j * b)%nat by lia.
    rewrite IH. unfold chunk at 2.
    replace (S j + c)%nat with (j + S c)%nat by lia. reflexivity.
Qed.

Lemma concat_chunks {A} (b : nat) (ary : list A) (c : nat) :
  concat (map (chunk b ary) (seq 0 c)) = firstn (c * b) ary.
Proof.
  induction c as [ | c IH ]; [ reflexivity | ].
  rewrite seq_S, map_app, concat_app, IH. cbn [Nat.add map concat].
  rewrite app_nil_r. unfold chunk.
  replace (S c * b)%nat with (c * b + b)%nat by lia.
  symmetry. apply firstn_add_skipn.
Qed.

(** The number of divisions that [np.arange(b, N, b)] gives. *)
Lemma divisions_count (b N : nat) :
  (0 < b)%nat ->
  let c := ((N - b + (b - 1)) / b)%nat in
  (c * b < N \/ c = 0%nat)%nat /\ (N <= (c + 1) * b)%nat /\
  S c = Nat.max 1 ((N + (b - 1)) / b).
Proof.
  intros Hb c.
  assert (Hc : (b * c <= N - b + (b - 1) < b * c + b)%nat).
  { subst c. pose proof (Nat.div_mod_eq (N - b + (b - 1)) b) as E.
    pose proof (Nat.mod_upper_bound (N - b + (b - 1)) b ltac:(lia)). lia. }
  set (c' := ((N + (b - 1)) / b)%nat).
  assert (Hc' : (b * c' <= N + (b - 1) < b * c' + b)%nat).
  { subst c'. pose proof (Nat.div_mod_eq (N + (b - 1)) b) as E.
    pose proof (Nat.mod_upper_bound (N + (b - 1)) b ltac:(lia)). lia. }
  clearbody c c'.
  destruct (Nat.le_gt_cases N b) as [Hle|Hgt].
  - assert (c = 0)%nat by nia. subst c.
    assert (c' <= 1)%nat by nia. lia.
  - assert (c' = S c) by nia. nia.
Qed.

Section GridLaws.
Context `{ExtMath R}.

Lemma init_batches (bs : positive) (sampling : list nat) (bnds : list (R * R)) :
  let g := GridOptimizer_init bs sampling bnds in
  let b := Pos.to_nat bs in
  let c := ((length (grid g) - b + (b - 1)) / b)%nat in
  batches g = map (chunk b (grid g)) (seq 0 (S c)) /\
  (c * b < length (grid g) \/ c = 0%nat)%nat /\
  (length (grid g) <= (c + 1) * b)%nat /\
  S c = Nat.max 1 ((length (grid g) + (b - 1)) / b).
Proof.
  intros g b c. pose proof (Pos2Nat.is_pos bs) as Hb. fold b in Hb.
  destruct (divisions_count b (length (grid g)) Hb) as (H1 & H2 & H3). fold c in H1, H2, H3.
  split; [ | split; [ exact H1 | split; [ exact H2 | exact H3 ] ] ].
  unfold g at 1, GridOptimizer_init. cbn [batches]. unfold np_split, np_arange.
  change (cartesian _) with (grid g). fold b. fold c.
  pose proof (split_from_chunks b (grid g) c 0) as E. cbn [Nat.mul Nat.add] in E.
  rewrite E. rewrite seq_S, map_app. cbn [Nat.add map]. f_equal. f_equal.
  unfold chunk. symmetry. apply firstn_all2. rewrite length_skipn. lia.
Qed.

Lemma batches_prefix (bs : positive) (sampling : list nat) (bnds : list (R * R)) (k : nat) :
  let g := GridOptimizer_init bs sampling bnds in
  concat (firstn k (batches g)) = firstn (k * Pos.to_nat bs) (grid g).
Proof.
  intros g. destruct (init_batches bs sampling bnds) as (Eb & H1 & H2 & _).
  fold g in Eb, H1, H2. cbv zeta in Eb, H1, H2.
  set (b := Pos.to_nat bs) in *.
  set (c := ((length (grid g) - b + (b - 1)) / b)%nat) in *.
  rewrite Eb. destruct (Nat.le_gt_cases k (S c)) as [Hk|Hk].
  - rewrite firstn_map, firstn_seq_min.
    replace (Nat.min k (S c)) with k by lia. apply concat_chunks.
  - rewrite firstn_all2 by (rewrite length_map, length_seq; lia).
    rewrite concat_chunks. rewrite !firstn_all2 by nia. reflexivity.
Qed.

(** X22: the batches that the constructor forms are a partition of the
    grid in grid order: concatenated they give the grid back; there are
    max(1, ceil(N / batchsize)) of them for N grid points; batch i holds the
    grid rows from i * batchsize on, batchsize of them or what is left, and
    is empty only when the grid is; the history has one entry per grid
    point; and once [completed] holds, the batches before the current
    iteration cover the whole grid. *)
Theorem batches_partition_grid (bs : positive) (sampling : list nat)
  (bnds : list (R * R)) :
  let g := GridOptimizer_init bs sampling bnds in
  let b := Pos.to_nat bs in
  let N := length (grid g) in
  concat (batches g) = grid g /\
  length (batches g) = Nat.max 1 ((N + (b - 1)) / b) /\
  length (history g) = N /\
  (forall i, completed g i = true -> firstn (i * b) (grid g) = grid g) /\
  forall i bt, nth_error (batches g) i = Some bt ->
    bt = firstn b (skipn (i * b) (grid g)) /\
    length bt = Nat.min b (N - i * b) /\
    (i * b + length bt <= N)%nat /\
    ((0 < N)%nat -> (0 < length bt)%nat).
Proof.
  intros g b N. destruct (init_batches bs sampling bnds) as (Eb & H1 & H2 & H3).
  fold g in Eb, H1, H2, H3. cbv zeta in Eb, H1, H2, H3. fold b in Eb, H1, H2, H3.
  set (c := ((length (grid g) - b + (b - 1)) / b)%nat) in *.
  fold N in H1, H2, H3. clearbody c.
  pose proof (Pos2Nat.is_pos bs) as Hb. fold b in Hb.
  assert (Hall : concat (batches g) = grid g).
  { rewrite <- (firstn_all (batches g)). unfold g. rewrite batches_prefix.
    fold g. fold b. rewrite Eb, length_map, length_seq. apply firstn_all2. fold N. nia. }
  split; [ exact Hall | ].
  split; [ rewrite Eb, length_map, length_seq; exact H3 | ].
  split; [ unfold N, g, GridOptimizer_init; cbn [history grid]; apply repeat_length | ].
  split.
  - intros i Hi. unfold completed in Hi. apply Nat.leb_le in Hi.
    rewrite Eb, length_map, length_seq in Hi. apply firstn_all2. fold N. nia.
  - intros i bt Hi. rewrite Eb in Hi. rewrite nth_error_map in Hi.
    destruct (nth_error (seq 0 (S c)) i) as [j|] eqn:Ej; [ | discriminate Hi ].
    assert (Hlt : (i < S c)%nat).
    { rewrite <- (length_seq (S c) 0). apply nth_error_Some. rewrite Ej. discriminate. }
    rewrite nth_error_seq in Ej.
    destruct (Nat.ltb i (S c)) eqn:El; [ | discriminate Ej ]. injection Ej as <-.
    cbn [option_map Nat.add] in Hi. injection Hi as <-. unfold chunk.
    split; [ reflexivity | ].
    rewrite length_firstn, length_skipn. change (length (cartesian _)) with N.
    assert (Hib : (i * b <= c * b)%nat) by nia.
    assert (Hlt' : (0 < N -> i * b < N)%nat).
    { intros HN. destruct H1 as [H1| ->]; [ lia | ].
      assert (i = 0)%nat by lia. subst i. lia. }
    split; [ reflexivity | ]. split; [ lia | ]. intros HN. specialize (Hlt' HN). lia.
Qed.

Lemma append_column_length (pts : list (list R)) (vals : list R) :
  length pts = length vals -> length (append_column pts vals) = length pts.
Proof.
  revert vals. induction pts as [ | p pts IH ]; intros [ | v vals ] Hl; try discriminate Hl;
    cbn [append_column length]; [ reflexivity | ].
  f_equal. apply IH. injection Hl as Hl. exact Hl.
Qed.

Lemma append_column_nth (pts : list (list R)) (vals : list R) :
  forall i p v, nth_error pts i = Some p -> nth_error vals i = Some v ->
    nth_error (append_column pts vals) i = Some (p ++ [v]).
Proof.
  revert vals. induction pts as [ | p0 pts IH ]; intros vals [ | i ] p v Hp Hv;
    try discriminate Hp; destruct vals as [ | v0 vals ]; try discriminate Hv;
    cbn [nth_error append_column] in *.
  - congruence.
  - apply IH; assumption.
Qed.

(** X23: [get_history] raises ValueError before the first iteration
    (np.vstack of no array); after k > 0 iterations it returns the first
    min(k * batchsize, N) grid points, each with its entry of the history
    array appended as last column. *)
Theorem get_history_prefix (bs : positive) (sampling : list nat) (bnds : list (R * R))
  (h : list R) (k : nat) :
  let g0 := GridOptimizer_init bs sampling bnds in
  let g := {| grid := grid g0; batches := batches g0; batchsize := bs; history := h |} in
  let n := Nat.min (k * Pos.to_nat bs) (length (grid g0)) in
  length h = length (grid g0) ->
  get_history g 0 = Raise ValueError /\
  ((0 < k)%nat ->
   exists rows,
     get_history g k = Ok rows /\ length rows = n /\
     forall i p v, nth_error (grid g0) i = Some p -> nth_error h i = Some v -> (i < n)%nat ->
       nth_error rows i = Some (p ++ [v])).
Proof.
  intros g0 g n Hh. split; [ reflexivity | ].
  intros Hk. unfold get_history. cbn [batches history g].
  assert (Ev : np_vstack (firstn k (batches g0))
               = Ok (firstn (k * Pos.to_nat bs) (grid g0))).
  { pose proof (batches_prefix bs sampling bnds k) as E. fold g0 in E. cbv zeta in E.
    rewrite <- E. unfold np_vstack.
    destruct (firstn k (batches g0)) as [ | bt l ] eqn:Ef; [ | reflexivity ].
    exfalso. destruct (init_batches bs sampling bnds) as (Eb & _). fold g0 in Eb.
    cbv zeta in Eb. rewrite Eb in Ef. destruct k; [ lia | ].
    cbn [seq map firstn] in Ef. discriminate Ef. }
  rewrite Ev. cbn [bind].
  assert (Hlen : length (firstn (k * Pos.to_nat bs) (grid g0)) = n)
    by (rewrite length_firstn; reflexivity).
  rewrite Hlen. unfold np_c_.
  assert (Hv : length (firstn n h) = n) by (rewrite length_firstn; lia).
  rewrite Hlen, Hv, Nat.eqb_refl. eexists. split; [ reflexivity | ].
  split; [ rewrite append_column_length by congruence; exact Hlen | ].
  intros i p v Hp Hvv Hi. apply append_column_nth.
  - rewrite nth_error_firstn. destruct (Nat.ltb i (k * Pos.to_nat bs)) eqn:E; [ exact Hp | ].
    apply Nat.ltb_ge in E. lia.
  - rewrite nth_error_firstn. destruct (Nat.ltb i n) eqn:E; [ exact Hvv | ].
    apply Nat.ltb_ge in E. lia.
Qed.
End GridLaws.

Section GridLaws2.
Context `{ExtMath R}.

Lemma batches_nth (bs : positive) (sampling : list nat) (bnds : list (R * R)) :
  let g := GridOptimizer_init bs sampling bnds in
  let b := Pos.to_nat bs in
  forall i bt, nth_error (batches g) i = Some bt ->
    bt = firstn b (skipn (i * b) (grid g)) /\
    (i * b + length bt <= length (grid g))%nat /\
    (i < length (batches g))%nat.
Proof.
  intros g b i bt Hi.
  assert (Hlt : (i < length (batches g))%nat).
  { apply nth_error_Some. rewrite Hi. discriminate. }
  destruct (init_batches bs sampling bnds) as (Eb & H1 & H2 & _).
  fold g in Eb, H1, H2. cbv zeta in Eb, H1, H2. fold b in Eb, H1, H2.
  set (c := ((length (grid g) - b + (b - 1)) / b)%nat) in *. clearbody c.
  split; [ | split; [ | exact Hlt ] ].
  - rewrite Eb in Hi. rewrite nth_error_map in Hi.
    rewrite Eb, length_map, length_seq in Hlt.
    rewrite nth_error_seq in Hi. apply Nat.ltb_lt in Hlt. rewrite Hlt in Hi.
    cbn [option_map Nat.add] in Hi. injection Hi as <-. reflexivity.
  - rewrite Eb in Hi. rewrite nth_error_map in Hi.
    rewrite Eb, length_map, length_seq in Hlt.
    rewrite nth_error_seq in Hi. pose proof Hlt as Hlt'. apply Nat.ltb_lt in Hlt'.
    rewrite Hlt' in Hi.
    cbn [option_map Nat.add] in Hi. injection Hi as <-. unfold chunk.
    rewrite length_firstn, length_skipn.
    change (length (cartesian _)) with (length (grid g)).
    assert (Hib : (i * b <= c * b)%nat) by nia.
    destruct H1 as [H1| ->]; [ lia | ].
    assert (i = 0)%nat by lia. subst i. lia.
Qed.

Lemma set_slice_inside (h res : list R) (start : nat) :
  (start + length res <= length h)%nat ->
  exists h', set_slice h start res = Ok h' /\
    length h' = length h /\
    (forall j, (j < length res)%nat -> nth_error h' (start + j) = nth_error res j) /\
    (forall m, (m < start \/ start + length res <= m)%nat -> nth_error h' m = nth_error h m).
Proof.
  intros Hle. unfold set_slice.
  replace (Nat.min (start + length res) (length h) - Nat.min start (length h))%nat
    with (length res) by lia.
  rewrite Nat.eqb_refl. eexists. split; [ reflexivity | ].
  assert (Lf : length (firstn start h) = start) by (rewrite length_firstn; lia).
  split; [ rewrite !length_app, Lf, length_skipn; lia | ]. split.
  - intros j Hj. rewrite nth_error_app2 by lia. rewrite Lf.
    replace (start + j - start)%nat with j by lia. apply nth_error_app1, Hj.
  - intros m [Hm|Hm].
    + rewrite nth_error_app1 by lia. rewrite nth_error_firstn.
      apply Nat.ltb_lt in Hm. rewrite Hm. reflexivity.
    + rewrite nth_error_app2 by lia. rewrite Lf.
      rewrite nth_error_app2 by lia. rewrite nth_error_skipn. f_equal. lia.
Qed.

(** X24: [step] raises StopIteration once [completed] holds; before that,
    when the objective returns one value per point, it evaluates batch
    number [iteration], writes each result into the history at the grid
    index of its sampling point, and leaves every other entry of the
    history as it was. *)
Theorem step_records_at_grid_index (evaluate_objective : list (list R) -> list R)
  (bs : positive) (sampling : list nat) (bnds : list (R * R)) (h : list R) (i : nat) :
  let g0 := GridOptimizer_init bs sampling bnds in
  let g := {| grid := grid g0; batches := batches g0; batchsize := bs; history := h |} in
  let b := Pos.to_nat bs in
  length h = length (grid g0) ->
  (forall pts, length (evaluate_objective pts) = length pts) ->
  (completed g i = true -> step evaluate_objective g i = StopIteration) /\
  (completed g i = false ->
   exists pts h',
     step evaluate_objective g i = Stepped (pts, evaluate_objective pts, h') /\
     nth_error (batches g) i = Some pts /\
     pts = firstn b (skipn (i * b) (grid g)) /\
     length h' = length h /\
     (forall j p, nth_error pts j = Some p ->
        nth_error (grid g) (i * b + j) = Some p /\
        nth_error h' (i * b + j) = nth_error (evaluate_objective pts) j) /\
     (forall m, (m < i * b \/ i * b + length pts <= m)%nat ->
        nth_error h' m = nth_error h m)).
Proof.
  intros g0 g b Hh He. split.
  - intros Hc. unfold step. rewrite Hc. reflexivity.
  - intros Hc. unfold step. rewrite Hc. unfold completed in Hc. cbn [batches g] in *.
    apply Nat.leb_gt in Hc.
    destruct (nth_error (batches g0) i) as [pts|] eqn:Ei;
      [ | apply nth_error_None in Ei; lia ].
    unfold index. rewrite Ei. cbn [batchsize history g]. fold b.
    destruct (batches_nth bs sampling bnds i pts Ei) as (Ep & Hle & _).
    fold g0 in Ep, Hle. cbv zeta in Ep, Hle. fold b in Ep, Hle.
    destruct (set_slice_inside h (evaluate_objective pts) (i * b))
      as (h' & Es & Hl & Hin & Hout); [ rewrite He; lia | ].
    rewrite Es. exists pts, h'.
    split; [ reflexivity | split; [ reflexivity | split; [ exact Ep | split; [ exact Hl | ] ] ] ].
    split.
    + intros j p Hj.
      assert (Hjl : (j < length pts)%nat) by (apply nth_error_Some; rewrite Hj; discriminate).
      split; [ | apply Hin; rewrite He; exact Hjl ].
      cbn [grid]. rewrite Ep in Hj. rewrite nth_error_firstn in Hj.
      destruct (Nat.ltb j b); [ | discriminate Hj ].
      rewrite nth_error_skipn in Hj. exact Hj.
    + intros m Hm. apply Hout. rewrite He. exact Hm.
Qed.
End GridLaws2.






Lemma line_grid_length : length [5; 0; 0] = length (grid line_grid).
Proof. reflexivity. Qed.

Lemma get_history_prefix_witness :
  exists rows, get_history (line_grid_after [5; 0; 0]) 1 = Ok rows /\ length rows = 2%nat.
Proof.
  destruct (proj2 (@get_history_prefix product_extmath 2%positive [3%nat] [(0, 1)] [5; 0; 0]
                     1%nat line_grid_length) ltac:(lia))
    as (rows & E & Hl & _).
  exists rows. split; [ exact E | exact Hl ].
Defined.

Lemma step_records_at_grid_index_witness :
  exists pts h',
    step (map (fun _ => 5)) (line_grid_after [0; 0; 0]) 0
    = Stepped (pts, map (fun _ => 5) pts, h') /\
    length h' = 3%nat.
Proof.
  destruct (proj2 (@step_records_at_grid_index product_extmath (map (fun _ => 5))
                     2%positive [3%nat] [(0, 1)] [0; 0; 0] 0%nat eq_refl
                     (fun pts => length_map _ pts)) eq_refl)
    as (pts & h' & E & _ & _ & Hl & _).
  exists pts, h'. split; [ exact E | exact Hl ].
Defined.


Lemma flat_map_length_const {A B} (f : A -> list B) (n : nat) (l : list A) :
  (forall x, length (f x) = n) -> length (flat_map f l) = (length l * n)%nat.
Proof.
  intros Hf. induction l as [ | a l IH ]; [ reflexivity | ].
  cbn [flat_map length]. rewrite length_app, Hf, IH. lia.
Qed.

Lemma product_length (arrays : list (list R)) :
  length (product arrays) = fold_right (fun a n => (length a * n)%nat) 1%nat arrays.
Proof.
  induction arrays as [ | a rest IH ]; [ reflexivity | ].
  cbn [product fold_right].
  rewrite (flat_map_length_const _ (length (product rest)))
    by (intros x; apply length_map).
  rewrite IH. reflexivity.
Qed.

Lemma product_in (arrays : list (list R)) :
  forall row, In row (product arrays) <-> Forall2 (fun x a => In x a) row arrays.
Proof.
  induction arrays as [ | a rest IH ]; intros row; cbn [product].
  - split.
    + intros [<-|[]]. constructor.
    + intros Hf. inversion Hf. left. reflexivity.
  - rewrite in_flat_map. split.
    + intros (x & Hx & Hr). apply in_map_iff in Hr. destruct Hr as (r' & <- & Hr').
      constructor; [ exact Hx | apply IH, Hr' ].
    + intros Hf. inversion Hf as [ | x a' r' rest' Hx Hr' ]; subst.
      exists x. split; [ exact Hx | ]. apply in_map, IH, Hr'.
Qed.

Lemma np_linspace_length (a b : R) (d : nat) : length (np_linspace a b d) = d.
Proof.
  destruct d as [ | [ | d ] ]; [ reflexivity | reflexivity | ].
  unfold np_linspace. rewrite length_app, length_map, length_seq. cbn [length]. lia.
Qed.

Lemma np_linspace_ends (a b : R) (d : nat) :
  (2 <= d)%nat -> In a (np_linspace a b d) /\ In b (np_linspace a b d).
Proof.
  intros Hd. destruct d as [ | [ | d ] ]; try lia. unfold np_linspace. split.
  - apply in_or_app. left. cbn [seq map]. left.
    cbn [lit sadd ssub smul sdiv R_scalar Z.of_nat]. ring.
  - apply in_or_app. right. left. reflexivity.
Qed.

Lemma np_linspace_range (a b : R) (d : nat) (x : R) :
  a <= b -> In x (np_linspace a b d) -> a <= x <= b.
Proof.
  intros Hab Hx. destruct d as [ | [ | d ] ].
  - destruct Hx.
  - destruct Hx as [<-|[]]. lra.
  - unfold np_linspace in Hx. apply in_app_or in Hx. destruct Hx as [Hx|[<-|[]]]; [ | lra ].
    apply in_map_iff in Hx. destruct Hx as (i & <- & Hi). apply in_seq in Hi.
    cbn [lit sadd ssub smul sdiv R_scalar].
    assert (H0 : 0 <= IZR (Z.of_nat i)) by (apply IZR_le; lia).
    assert (H1 : IZR (Z.of_nat i) <= IZR (Z.of_nat (S d))) by (apply IZR_le; lia).
    assert (Hd : 0 < IZR (Z.of_nat (S d))) by (apply IZR_lt; lia).
    revert H0 H1 Hd. generalize (IZR (Z.of_nat i)) (IZR (Z.of_nat (S d))). intros k n H0 H1 Hd.
    assert (Hq : 0 <= k / n <= 1).
    { split; [ apply Rmult_le_pos; [ lra | left; apply Rinv_0_lt_compat, Hd ] | ].
      apply Rmult_le_reg_r with n; [ exact Hd | ].
      replace (k / n * n) with k by (field; lra). lra. }
    replace (k * ((b - a) / n) + a) with (a + (k / n) * (b - a)) by (field; lra).
    nra.
Qed.

(** X27: when [cartesian] returns the product of its arrays and there is
    at least one dimension, the grid of the optimizer has one point for every choice of one sample per
    dimension, the product of the sampling densities in all; a row is a grid
    point exactly when each of its coordinates is one of the samples
    np.linspace(min, max, d) of its dimension; every coordinate of a grid
    point lies within the bounds of its dimension (for min <= max); and
    with at least two samples in every dimension the corner of all minima
    and the corner of all maxima are grid points. *)
Theorem grid_is_product_of_linspaces `{ExtMath R} (bs : positive)
  (sampling : list nat) (bnds : list (R * R)) :
  (forall arrays, arrays <> [] -> cartesian arrays = product arrays) ->
  combine bnds sampling <> [] ->
  let g := GridOptimizer_init bs sampling bnds in
  let dims := combine bnds sampling in
  length (grid g) = fold_right (fun bd n => (snd bd * n)%nat) 1%nat dims /\
  (forall row, In row (grid g) <-> Forall2 (fun x bd => In x (dim_sample bd)) row dims) /\
  (forall row, In row (grid g) ->
     Forall2 (fun x bd => fst (fst bd) <= snd (fst bd) ->
                          fst (fst bd) <= x <= snd (fst bd)) row dims) /\
  (Forall (fun bd => (2 <= snd bd)%nat) dims ->
   In (map (fun bd => fst (fst bd)) dims) (grid g) /\
   In (map (fun bd => snd (fst bd)) dims) (grid g)).
Proof.
  intros Hc Hne g dims.
  assert (Eg : grid g = product (map dim_sample dims)).
  { unfold g, GridOptimizer_init. cbn [grid]. apply Hc.
    intros E. apply Hne. exact (map_eq_nil _ _ E). }
  assert (Hin : forall row, In row (grid g)
                  <-> Forall2 (fun x bd => In x (dim_sample bd)) row dims).
  { intros row. rewrite Eg, product_in. clear. generalize dims. intros l. split.
    - revert row. induction l as [ | bd l IH ]; intros row Hf; inversion Hf; subst;
        constructor; [ assumption | apply IH; assumption ].
    - revert row. induction l as [ | bd l IH ]; intros row Hf; inversion Hf; subst;
        constructor; [ assumption | apply IH; assumption ]. }
  split; [ | split; [ exact Hin | split ] ].
  - rewrite Eg, product_length. clear. induction dims as [ | bd l IH ]; [ reflexivity | ].
    cbn [map fold_right]. rewrite IH. unfold dim_sample at 1. rewrite np_linspace_length.
    reflexivity.
  - intros row Hr. apply Hin in Hr. clear -Hr.
    induction Hr as [ | x bd row l Hx _ IH ]; constructor; [ | exact IH ].
    intros Hab. exact (np_linspace_range _ _ _ x Hab Hx).
  - intros Hd. split; apply Hin; clear -Hd.
    + induction Hd as [ | bd l Hbd _ IH ]; cbn [map]; constructor; [ | exact IH ].
      exact (proj1 (np_linspace_ends _ _ _ Hbd)).
    + induction Hd as [ | bd l Hbd _ IH ]; cbn [map]; constructor; [ | exact IH ].
      exact (proj2 (np_linspace_ends _ _ _ Hbd)).
Qed.

Lemma grid_is_product_of_linspaces_witness :
  length (grid line_grid) = 3%nat /\ In [0] (grid line_grid) /\ In [1] (grid line_grid).
Proof.
  destruct (@grid_is_product_of_linspaces product_extmath 2%positive [3%nat] [(0, 1)]
              (fun arrays _ => eq_refl) ltac:(discriminate)) as (Hl & _ & _ & Hc).
  split; [ exact Hl | ].
  apply Hc. constructor; [ cbn [snd]; lia | constructor ].
Defined.
